(** * pep8ext.astchecker: naming checks on the Python AST

    A shallow embedding of [pep8ext/astchecker.py].  The module walks a
    Python syntax tree, tags the functions of a class with their kind,
    collects the names a function declares [global], and hands every
    node to the registered checks, which yield positioned diagnostics.

    The embedding follows the Python 3 definitions of the module (the
    [else] branch of [get_arg_names], [ast.iter_child_nodes]) on the
    grammar in which [arguments.vararg] and [arguments.kwarg] are plain
    identifiers, as the checks expect. *)

From Stdlib Require Import ZArith String Ascii List Lia Bool Arith Sorted.
From stdpp Require Import gmap strings list.

Import ListNotations.
Local Open Scope string_scope.
Local Open Scope list_scope.
Local Open Scope Z_scope.

(** ** The node model *)

Inductive expr_context := Load | Store | Del | AugLoad | AugStore | Param.

(** [arg(arg, annotation)], [arguments(...)] and [alias(name, asname)]
    are records over the type of their child expressions. *)
Record ast_arg (N : Type) := mk_arg {
  arg : string;
  annotation : option N }.
Arguments mk_arg {N}.
Arguments arg {N}.
Arguments annotation {N}.

Record ast_arguments (N : Type) := mk_arguments {
  args : list (ast_arg N);
  vararg : option string;
  varargannotation : option N;
  kwonlyargs : list (ast_arg N);
  kwarg : option string;
  kwargannotation : option N;
  defaults : list N;
  kw_defaults : list (option N) }.
Arguments mk_arguments {N}.
Arguments args {N}.
Arguments vararg {N}.
Arguments varargannotation {N}.
Arguments kwonlyargs {N}.
Arguments kwarg {N}.
Arguments kwargannotation {N}.
Arguments defaults {N}.
Arguments kw_defaults {N}.

Record ast_alias := mk_alias {
  name : string;
  asname : option string }.

(** The kinds the module inspects have a constructor each; [Arguments],
    [Arg], [Alias] and [Ctx] are the [arguments], [arg], [alias] and
    expression-context objects seen as nodes of the tree; every other
    kind is [Other], with its class name and its child nodes in field
    order. *)
#[local] Unset Elimination Schemes.
Inductive node :=
| ClassDef (cname : string) (bases keywords : list node)
           (starargs kwargs : option node)
           (body decorator_list : list node) (lineno col_offset : Z)
| FunctionDef (fname : string) (fargs : ast_arguments node)
              (body decorator_list : list node) (returns : option node)
              (lineno col_offset : Z)
| Arguments (a : ast_arguments node)
| Arg (a : ast_arg node)
| Assign (targets : list node) (value : node) (lineno col_offset : Z)
| Call (func : node) (cargs keywords : list node)
       (starargs kwargs : option node) (lineno col_offset : Z)
| Name (id : string) (ctx : expr_context) (lineno col_offset : Z)
| Global (names : list string) (lineno col_offset : Z)
| ImportFrom (module : option string) (names : list ast_alias)
             (level : option Z) (lineno col_offset : Z)
| Alias (a : ast_alias)
| Ctx (c : expr_context)
| Other (kind : string) (fields : list node) (lineno col_offset : Z).
#[local] Set Elimination Schemes.

(** [node.__class__.__name__] *)
Definition class_name (n : node) : string :=
  match n with
  | ClassDef _ _ _ _ _ _ _ _ _ => "ClassDef"
  | FunctionDef _ _ _ _ _ _ _ => "FunctionDef"
  | Arguments _ => "arguments"
  | Arg _ => "arg"
  | Assign _ _ _ _ => "Assign"
  | Call _ _ _ _ _ _ _ => "Call"
  | Name _ _ _ _ => "Name"
  | Global _ _ _ => "Global"
  | ImportFrom _ _ _ _ _ => "ImportFrom"
  | Alias _ => "alias"
  | Ctx Load => "Load"
  | Ctx Store => "Store"
  | Ctx Del => "Del"
  | Ctx AugLoad => "AugLoad"
  | Ctx AugStore => "AugStore"
  | Ctx Param => "Param"
  | Other kind _ _ _ => kind
  end.

(** [node.lineno] and [node.col_offset].  [arguments], [arg], [alias]
    and the expression contexts carry no position; no check builds a
    diagnostic from them, and the accessors read 0 there. *)
Definition node_lineno (n : node) : Z :=
  match n with
  | ClassDef _ _ _ _ _ _ _ l _ | FunctionDef _ _ _ _ _ l _
  | Assign _ _ l _ | Call _ _ _ _ _ l _ | Name _ _ l _ | Global _ l _
  | ImportFrom _ _ _ l _ | Other _ _ l _ => l
  | Arguments _ | Arg _ | Alias _ | Ctx _ => 0
  end.

Definition node_col_offset (n : node) : Z :=
  match n with
  | ClassDef _ _ _ _ _ _ _ _ c | FunctionDef _ _ _ _ _ _ c
  | Assign _ _ _ c | Call _ _ _ _ _ _ c | Name _ _ _ c | Global _ _ c
  | ImportFrom _ _ _ _ c | Other _ _ _ c => c
  | Arguments _ | Arg _ | Alias _ | Ctx _ => 0
  end.

(** An optional child field: [None] is skipped by the iteration. *)
Definition opt_node (o : option node) : list node :=
  match o with Some n => [n] | None => [] end.

Definition opt_nodes (l : list (option node)) : list node :=
  flat_map opt_node l.

(** [ast_iter_nodes]: the direct child nodes, field by field in the
    order of [_fields]; a field holding a list contributes its items. *)
Definition ast_iter_nodes (n : node) : list node :=
  match n with
  | ClassDef _ bases keywords starargs kwargs body decorator_list _ _ =>
      bases ++ keywords ++ opt_node starargs ++ opt_node kwargs
            ++ body ++ decorator_list
  | FunctionDef _ fargs body decorator_list returns _ _ =>
      Arguments fargs :: body ++ decorator_list ++ opt_node returns
  | Arguments a =>
      map Arg (args a) ++ opt_node (varargannotation a)
          ++ map Arg (kwonlyargs a) ++ opt_node (kwargannotation a)
          ++ defaults a ++ opt_nodes (kw_defaults a)
  | Arg a => opt_node (annotation a)
  | Assign targets value _ _ => targets ++ [value]
  | Call func cargs keywords starargs kwargs _ _ =>
      func :: cargs ++ keywords ++ opt_node starargs ++ opt_node kwargs
  | Name _ ctx _ _ => [Ctx ctx]
  | Global _ _ _ => []
  | ImportFrom _ names _ _ _ => map Alias names
  | Alias _ => []
  | Ctx _ => []
  | Other _ fields _ _ => fields
  end.

(** The number of nodes of a tree: the measure of the traversals. *)
Definition sum_sizes {A} (f : A -> nat) (l : list A) : nat :=
  fold_right (fun x acc => (f x + acc)%nat) O l.

Definition opt_size {A} (f : A -> nat) (o : option A) : nat :=
  match o with Some x => f x | None => O end.

Fixpoint node_size (n : node) : nat :=
  let arg_size (a : ast_arg node) := S (opt_size node_size (annotation a)) in
  let arguments_size (a : ast_arguments node) :=
    S (sum_sizes arg_size (args a) + opt_size node_size (varargannotation a)
       + sum_sizes arg_size (kwonlyargs a)
       + opt_size node_size (kwargannotation a)
       + sum_sizes node_size (defaults a)
       + sum_sizes (opt_size node_size) (kw_defaults a)) in
  match n with
  | ClassDef _ bases keywords starargs kwargs body decorator_list _ _ =>
      S (sum_sizes node_size bases + sum_sizes node_size keywords
         + opt_size node_size starargs + opt_size node_size kwargs
         + sum_sizes node_size body + sum_sizes node_size decorator_list)
  | FunctionDef _ fargs body decorator_list returns _ _ =>
      S (arguments_size fargs + sum_sizes node_size body
         + sum_sizes node_size decorator_list + opt_size node_size returns)
  | Arguments a => arguments_size a
  | Arg a => arg_size a
  | Assign targets value _ _ =>
      S (sum_sizes node_size targets + node_size value)
  | Call func cargs keywords starargs kwargs _ _ =>
      S (node_size func + sum_sizes node_size cargs
         + sum_sizes node_size keywords
         + opt_size node_size starargs + opt_size node_size kwargs)
  | Name _ _ _ _ => 2%nat
  | Global _ _ _ => 1%nat
  | ImportFrom _ names _ _ _ => S (length names)
  | Alias _ => 1%nat
  | Ctx _ => 1%nat
  | Other _ fields _ _ => S (sum_sizes node_size fields)
  end.

(** ** Strings and patterns *)

Definition char_between (lo hi c : ascii) : bool :=
  (nat_of_ascii lo <=? nat_of_ascii c)%nat && (nat_of_ascii c <=? nat_of_ascii hi)%nat.

Definition is_underscore (c : ascii) : bool := Ascii.eqb c "_".
Definition is_lower (c : ascii) : bool := char_between "a" "z" c.
Definition is_upper (c : ascii) : bool := char_between "A" "Z" c.
Definition is_digit (c : ascii) : bool := char_between "0" "9" c.

Definition newline : ascii := "010".

(** [cls*$] from the current position: the run of [cls] characters has
    to reach the end of the string, or the newline that ends it (what
    [$] accepts without [re.MULTILINE]).  None of the classes below
    contains the newline, so the longest run is the only candidate. *)
Fixpoint match_star_end (cls : ascii -> bool) (s : string) : bool :=
  match s with
  | EmptyString => true
  | String c rest =>
      if cls c then match_star_end cls rest
      else Ascii.eqb c newline && String.eqb rest ""
  end.

(** [re.compile(first rest* $).match]: anchored at the start. *)
Definition match_first_star_end (first rest : ascii -> bool) (s : string) : bool :=
  match s with
  | EmptyString => false
  | String c s' => first c && match_star_end rest s'
  end.

(** [LOWERCASE_REGEX = re.compile(r'[_a-z][_a-z0-9]*$')] *)
Definition LOWERCASE_REGEX_match : string -> bool :=
  match_first_star_end
    (fun c => is_underscore c || is_lower c)
    (fun c => is_underscore c || is_lower c || is_digit c).

(** [UPPERCASE_REGEX = re.compile(r'[_A-Z][_A-Z0-9]*$')] *)
Definition UPPERCASE_REGEX_match : string -> bool :=
  match_first_star_end
    (fun c => is_underscore c || is_upper c)
    (fun c => is_underscore c || is_upper c || is_digit c).

(** [MIXEDCASE_REGEX = re.compile(r'_?[A-Z][a-zA-Z0-9]*$')]: after a
    leading underscore only the branch that consumes it can go on,
    since [[A-Z]] rejects the underscore. *)
Definition MIXEDCASE_REGEX_match (s : string) : bool :=
  let capwords :=
    match_first_star_end is_upper
      (fun c => is_lower c || is_upper c || is_digit c) in
  match s with
  | String c s' => if is_underscore c then capwords s' else capwords s
  | EmptyString => false
  end.

(** Slices [s[:k]] and [s[-k:]]. *)
Definition str_take (k : nat) (s : string) : string := substring 0 k s.
Definition str_take_last (k : nat) (s : string) : string :=
  substring (String.length s - k) k s.

(** [str.lower] on the ASCII letters. *)
Definition lower_char (c : ascii) : ascii :=
  if is_upper c then ascii_of_nat (nat_of_ascii c + 32) else c.

Fixpoint lower (s : string) : string :=
  match s with
  | EmptyString => EmptyString
  | String c s' => String (lower_char c) (lower s')
  end.

(** [get_arg_names] (Python 3): positional names, then keyword-only. *)
Definition get_arg_names (a : ast_arguments node) : list string :=
  let pos_args := map arg (args a) in
  let kw_only := map arg (kwonlyargs a) in
  pos_args ++ kw_only.

(** ** Diagnostics *)

(** The codes are attributes of the check classes holding the message;
    [message] is the lookup [getattr(self, code)], each code being
    defined in the one class that reports it. *)
Inductive code :=
| E800 | E801 | E802 | E803 | E804 | E805 | W800 | W801 | W802 | W803.

Definition code_name (c : code) : string :=
  match c with
  | E800 => "E800" | E801 => "E801" | E802 => "E802" | E803 => "E803"
  | E804 => "E804" | E805 => "E805" | W800 => "W800" | W801 => "W801"
  | W802 => "W802" | W803 => "W803"
  end.

Definition message (c : code) : string :=
  match c with
  | E800 => "class names should use CapWords convention"
  | E801 => "function name should be lowercase"
  | E802 => "argument name should be lowercase"
  | E803 => "first argument of a classmethod should be named 'cls'"
  | E804 => "first argument of a method should be named 'self'"
  | E805 => "variable in function should be lowercase"
  | W800 => "constant imported as non constant"
  | W801 => "lowercase imported as non lowercase"
  | W802 => "camelcase imported as lowercase"
  | W803 => "camelcase imported as constant"
  end.

(** A diagnostic [(lineno, col_offset, text, check)]; the check that
    reports is named by its class. *)
Definition error : Type := Z * Z * string * string.

Definition error_lineno (e : error) : Z := fst (fst (fst e)).
Definition error_col_offset (e : error) : Z := snd (fst (fst e)).
Definition error_text (e : error) : string := snd (fst e).
Definition error_check (e : error) : string := snd e.

(** ['%s %s' % (code, getattr(self, code))] *)
Definition error_message (c : code) : string :=
  (code_name c ++ " " ++ message c)%string.

Definition _err (self : string) (n : node) (c : code) : error :=
  let lineno := node_lineno n in
  let col_offset := node_col_offset n in
  match n with
  | ClassDef _ _ _ _ _ _ decorator_list _ _ =>
      (lineno + Z.of_nat (length decorator_list), col_offset + 6,
       error_message c, self)
  | FunctionDef _ _ _ decorator_list _ _ _ =>
      (lineno + Z.of_nat (length decorator_list), col_offset + 4,
       error_message c, self)
  | _ => (lineno, col_offset, error_message c, self)
  end.

(** ** Objects and their annotations

    The checker sets the attributes [function_type] and [global_names]
    on the node objects of the tree it walks, and the checks read them
    back through the node they are given or through the parents.  An
    object is a node together with its identity, the position of the
    node in the tree (the child indices from the root); the attributes
    live in a store keyed by identity, shared by all references. *)

Abbreviation path := (list nat).

Record obj := mk_obj {
  obj_id : path;
  obj_node : node }.

Record attrs := mk_attrs {
  function_type : gmap path string;
  global_names : gmap path (gset string) }.

Definition no_attrs : attrs := mk_attrs ∅ ∅.

(** [node.function_type = ft] *)
Definition set_function_type (o : obj) (ft : string) (st : attrs) : attrs :=
  mk_attrs (<[obj_id o := ft]> (function_type st)) (global_names st).

(** [node.global_names = names] *)
Definition set_global_names (o : obj) (names : gset string) (st : attrs) : attrs :=
  mk_attrs (function_type st) (<[obj_id o := names]> (global_names st)).

(** [getattr(node, 'function_type', 'function')] *)
Definition getattr_function_type (st : attrs) (o : obj) : string :=
  default "function" (function_type st !! obj_id o).

(** [enumerate]: the nodes of a list as the objects at the positions
    [k], [k + 1], ... below [p]. *)
Fixpoint objs_from (p : path) (k : nat) (l : list node) : list obj :=
  match l with
  | [] => []
  | c :: l => mk_obj (p ++ [k]) c :: objs_from p (S k) l
  end.

(** The child objects of an object, in the order of [ast_iter_nodes]. *)
Definition child_objs (o : obj) : list obj :=
  objs_from (obj_id o) 0 (ast_iter_nodes (obj_node o)).

(** ** Tagging the functions of a class *)

(** [func_name in ('classmethod', 'staticmethod')] *)
Definition is_method_wrapper (func_name : string) : bool :=
  String.eqb func_name "classmethod" || String.eqb func_name "staticmethod".

(** One round of the first loop of [tag_class_functions]: an assignment
    whose value is a call of the bare name [classmethod] or
    [staticmethod] on exactly one positional argument that is a bare
    name records that name. *)
Definition late_decoration_step (late_decoration : gmap string string) (n : node)
  : gmap string string :=
  match n with
  | Assign _ (Call (Name func_name _ _ _) cargs _ _ _ _ _) _ _ =>
      if is_method_wrapper func_name then
        match cargs with
        | [Name meth_id _ _ _] => <[meth_id := func_name]> late_decoration
        | _ => late_decoration
        end
      else late_decoration
  | _ => late_decoration
  end.

Definition late_decorations (children : list node) : gmap string string :=
  fold_left late_decoration_step children ∅.

(** [[d.id for d in node.decorator_list
      if isinstance(d, ast.Name) and d.id in ('classmethod', 'staticmethod')]] *)
Definition decorator_names (decorator_list : list node) : list string :=
  flat_map (fun d =>
    match d with
    | Name id _ _ _ => if is_method_wrapper id then [id] else []
    | _ => []
    end) decorator_list.

(** One round of the second loop. *)
Definition tag_function (late_decoration : gmap string string)
    (st : attrs) (o : obj) : attrs :=
  match obj_node o with
  | FunctionDef fname _ _ decorator_list _ _ _ =>
      let st := set_function_type o "method" st in
      match late_decoration !! fname with
      | Some ft => set_function_type o ft st
      | None =>
          match decorator_list with
          | [] => st
          | _ :: _ =>
              match decorator_names decorator_list with
              | first :: _ => set_function_type o first st
              | [] => st
              end
          end
      end
  | _ => st
  end.

Definition tag_class_functions (cls_node : obj) (st : attrs) : attrs :=
  let late_decoration := late_decorations (ast_iter_nodes (obj_node cls_node)) in
  fold_left (tag_function late_decoration) (child_objs cls_node) st.

(** ** The names a function declares global *)

(** [isinstance(node, (ast.FunctionDef, ast.ClassDef))] *)
Definition is_def (n : node) : bool :=
  match n with
  | FunctionDef _ _ _ _ _ _ _ | ClassDef _ _ _ _ _ _ _ _ _ => true
  | _ => false
  end.

(** [deque.pop()]: the right end of the deque is the end of the list. *)
Definition deque_pop {A} (d : list A) : option (A * list A) :=
  match rev d with
  | [] => None
  | x :: r => Some (x, rev r)
  end.

(** The [while] loop of [find_global_defs]; each round removes a node
    from the deque and adds at most its children, so [fuel] rounds are
    enough when [fuel] is the number of nodes below the deque. *)
Fixpoint global_defs_loop (fuel : nat) (nodes_to_check : list node)
    (global_names : gset string) : gset string :=
  match fuel with
  | O => global_names
  | S fuel =>
      match deque_pop nodes_to_check with
      | None => global_names
      | Some (n, nodes_to_check) =>
          let global_names :=
            match n with
            | Global names _ _ => global_names ∪ list_to_set names
            | _ => global_names
            end in
          let nodes_to_check :=
            if is_def n then nodes_to_check
            else nodes_to_check ++ ast_iter_nodes n in
          global_defs_loop fuel nodes_to_check global_names
      end
  end.

(** The set [find_global_defs] computes for a function node. *)
Definition global_defs (func_def_node : node) : gset string :=
  global_defs_loop (node_size func_def_node) (ast_iter_nodes func_def_node) ∅.

Definition find_global_defs (func_def_node : obj) (st : attrs) : attrs :=
  set_global_names func_def_node (global_defs (obj_node func_def_node)) st.

(** ** The checks

    A visit method receives the node and the deque of its parents and
    yields diagnostics.  It reads the attributes of the objects it is
    given from the store.  [None] stands for the [AttributeError] a
    method raises on an object that lacks an attribute it reads; all
    the methods below read what may be missing before they yield. *)

Definition handler : Type := attrs -> obj -> list obj -> option (list error).

Record check := mk_check {
  check_class : string;
  check_method : string -> option handler }.

(** [node.name] *)
Definition node_name (n : node) : option string :=
  match n with
  | ClassDef cname _ _ _ _ _ _ _ _ => Some cname
  | FunctionDef fname _ _ _ _ _ _ => Some fname
  | Alias a => Some (name a)
  | _ => None
  end.

Module ClassNameCheck.
Definition self : string := "ClassNameCheck".
Definition check_ : string -> bool := MIXEDCASE_REGEX_match.

Definition visit_classdef : handler := fun st node parents =>
    match node_name (obj_node node) with
    | Some cname =>
        if negb (check_ cname) then Some [_err self (obj_node node) E800]
        else Some []
    | None => None
    end.

Definition instance : check :=
    mk_check self (fun method =>
      if String.eqb method "visit_classdef" then Some visit_classdef else None).
End ClassNameCheck.

Module FunctionNameCheck.
Definition self : string := "FunctionNameCheck".
Definition check_ : string -> bool := LOWERCASE_REGEX_match.

Definition visit_functiondef : handler := fun st node parents =>
    let function_type := getattr_function_type st node in
    match node_name (obj_node node) with
    | Some fname =>
        if (String.eqb function_type "function"
            && (String.eqb "__" (str_take 2 fname)
                || String.eqb "__" (str_take_last 2 fname)))
           || negb (check_ fname)
        then Some [_err self (obj_node node) E801]
        else Some []
    | None => None
    end.

Definition instance : check :=
    mk_check self (fun method =>
      if String.eqb method "visit_functiondef" then Some visit_functiondef else None).
End FunctionNameCheck.

Module FunctionArgNamesCheck.
Definition self : string := "FunctionArgNamesCheck".
Definition check_ : string -> bool := LOWERCASE_REGEX_match.

  (** [x is not None] and [not self.check(x)] *)
Definition fails_check (x : option string) : bool :=
    match x with
    | Some s => negb (check_ s)
    | None => false
    end.

  (** The final loop: the first name that fails the check is reported
      and ends the method. *)
Fixpoint check_arg_names (n : node) (arg_names : list string) : list error :=
    match arg_names with
    | [] => []
    | a :: arg_names =>
        if negb (check_ a) then [_err self n E802]
        else check_arg_names n arg_names
    end.

(** The tests of the first argument, by the kind of the function. *)
Definition first_errors (function_type first : string) (n : node) : list error :=
    if String.eqb function_type "method" then
      if negb (String.eqb first "self") then [_err self n E804] else []
    else if String.eqb function_type "classmethod" then
      if negb (String.eqb first "cls") then [_err self n E803] else []
    else [].

Definition visit_functiondef : handler := fun st node parents =>
    match obj_node node with
    | FunctionDef _ fargs _ _ _ _ _ =>
        let n := obj_node node in
        if fails_check (kwarg fargs) then Some [_err self n E802]
        else if fails_check (vararg fargs) then Some [_err self n E802]
        else
          let arg_names := get_arg_names fargs in
          match arg_names with
          | [] => Some []
          | first :: _ =>
              let function_type := getattr_function_type st node in
              Some (first_errors function_type first n
                      ++ check_arg_names n arg_names)
          end
    | _ => None
    end.

Definition instance : check :=
    mk_check self (fun method =>
      if String.eqb method "visit_functiondef" then Some visit_functiondef else None).
End FunctionArgNamesCheck.

Module ImportAsCheck.
Definition self : string := "ImportAsCheck".
Definition check_lower : string -> bool := LOWERCASE_REGEX_match.
Definition check_upper : string -> bool := UPPERCASE_REGEX_match.

  (** The body of the loop for one imported name. *)
Definition visit_alias (n : node) (a : ast_alias) : list error :=
    match asname a with
    | None => []
    | Some alias_ =>
        if String.eqb alias_ "" then []
        else if check_upper (name a) then
          if negb (check_upper alias_) then [_err self n W800] else []
        else if check_lower (name a) then
          if negb (check_lower alias_) then [_err self n W801] else []
        else if check_lower alias_ then [_err self n W802]
        else if check_upper alias_ then [_err self n W803]
        else []
    end.

  (** [Global] also has a [names] attribute, a list of strings: the
      loop over an empty one ends at once, and [name.asname] fails on
      the first string otherwise. *)
Definition visit_importfrom : handler := fun st node parents =>
    match obj_node node with
    | ImportFrom _ names _ _ _ => Some (flat_map (visit_alias (obj_node node)) names)
    | Global [] _ _ => Some []
    | _ => None
    end.

Definition instance : check :=
    mk_check self (fun method =>
      if String.eqb method "visit_importfrom" then Some visit_importfrom else None).
End ImportAsCheck.

Module VariablesInFunctionCheck.
Definition self : string := "VariablesInFunctionCheck".
Definition check_ : string -> bool := LOWERCASE_REGEX_match.

  (** The [for ... else] over [reversed(parents)]: the nearest parent
      that is a class ends the method, the nearest that is a function
      is [parent_func]. *)
Fixpoint find_parent_func (reversed_parents : list obj) : option obj :=
    match reversed_parents with
    | [] => None
    | parent_func :: reversed_parents =>
        match obj_node parent_func with
        | ClassDef _ _ _ _ _ _ _ _ _ => None
        | FunctionDef _ _ _ _ _ _ _ => Some parent_func
        | _ => find_parent_func reversed_parents
        end
    end.

  (** The loop over the targets; [parent_func.global_names] is read at
      each target that is a named identifier. *)
Fixpoint visit_targets (st : attrs) (parent_func : obj) (targets : list node)
    : option (list error) :=
    match targets with
    | [] => Some []
    | target :: targets =>
        match target with
        | Name id _ _ _ =>
            if String.eqb id "" then Some []
            else
              match global_names st !! obj_id parent_func with
              | None => None
              | Some names =>
                  if bool_decide (id ∈ names) then Some []
                  else
                    let here :=
                      if negb (check_ id) && negb (String.eqb (str_take 1 id) "_")
                      then [_err self target E805] else [] in
                    match visit_targets st parent_func targets with
                    | Some later => Some (here ++ later)
                    | None => None
                    end
              end
        | _ => Some []
        end
    end.

Definition visit_assign : handler := fun st node parents =>
    match find_parent_func (rev parents) with
    | None => Some []
    | Some parent_func =>
        match obj_node node with
        | Assign targets _ _ _ => visit_targets st parent_func targets
        | _ => None
        end
    end.

Definition instance : check :=
    mk_check self (fun method =>
      if String.eqb method "visit_assign" then Some visit_assign else None).
End VariablesInFunctionCheck.

(** [BaseASTCheck._checks]: the metaclass appends an instance of every
    check class when the class is defined, in the order of the module. *)
Definition BaseASTCheck_checks : list check :=
  [ ClassNameCheck.instance; FunctionNameCheck.instance;
    FunctionArgNamesCheck.instance; ImportAsCheck.instance;
    VariablesInFunctionCheck.instance ].

(** ** The checker *)

(** One invocation [getattr(visitor, method)(node, self.parents)]: the
    position of the visitor in the registry, the attributes at the
    time, the arguments, and what the method yields. *)
Record call := mk_call {
  call_visitor : nat;
  call_attrs : attrs;
  call_node : obj;
  call_parents : list obj;
  call_result : option (list error) }.

Definition call_errors (c : call) : list error :=
  default [] (call_result c).

(** The state of a traversal: the invocations made so far in order,
    the attributes set on the nodes, the deque [self.parents], and
    whether a visit method has raised (which ends the traversal). *)
Record trav := mk_trav {
  calls : list call;
  node_attrs : attrs;
  parents_deque : list obj;
  raised : bool }.

Section ASTChecker.

  (** [self.visitors] *)
Variable visitors : list check.

  (** ['visit_' + node.__class__.__name__.lower()] *)
Definition visit_method (n : node) : string :=
    ("visit_" ++ lower (class_name n))%string.

  (** The loop of [visit_node] over the visitors from position [i] on. *)
Fixpoint visit_with (method : string) (st : attrs) (node : obj)
      (parents : list obj) (i : nat) (vs : list check) : list call * bool :=
    match vs with
    | [] => ([], false)
    | visitor :: vs =>
        match check_method visitor method with
        | None => visit_with method st node parents (S i) vs
        | Some h =>
            let result := h st node parents in
            let c := mk_call i st node parents result in
            match result with
            | None => ([c], true)
            | Some _ =>
                let '(cs, r) := visit_with method st node parents (S i) vs in
                (c :: cs, r)
            end
        end
    end.

Definition visit_node (node : obj) (t : trav) : trav :=
    let st :=
      match obj_node node with
      | ClassDef _ _ _ _ _ _ _ _ _ => tag_class_functions node (node_attrs t)
      | FunctionDef _ _ _ _ _ _ _ => find_global_defs node (node_attrs t)
      | _ => node_attrs t
      end in
    let '(cs, r) :=
      visit_with (visit_method (obj_node node)) st node (parents_deque t) O visitors in
    mk_trav (calls t ++ cs) st (parents_deque t) r.

  (** The loop of [_run] over the children. *)
Fixpoint run_children (run : obj -> trav -> trav) (children : list obj)
      (t : trav) : trav :=
    match children with
    | [] => t
    | child :: children =>
        let t := run child t in
        if raised t then t else run_children run children t
    end.

  (** [_run], by recursion on a bound on the size of the tree. *)
Fixpoint _run_bounded (bound : nat) (node : obj) (t : trav) : trav :=
    match bound with
    | O => t
    | S bound =>
        let t := visit_node node t in
        if raised t then t
        else
          let t := mk_trav (calls t) (node_attrs t) (parents_deque t ++ [node]) false in
          let t := run_children (_run_bounded bound) (child_objs node) t in
          if raised t then t
          else mk_trav (calls t) (node_attrs t) (removelast (parents_deque t)) false
    end.

Definition _run (node : obj) (t : trav) : trav :=
    _run_bounded (node_size (obj_node node)) node t.

  (** The checker on a freshly parsed tree, the root being the object
      at the empty path. *)
Definition initial : trav := mk_trav [] no_attrs [] false.

Definition run_trav (tree : node) : trav := _run (mk_obj [] tree) initial.

  (** What [run] hands to its consumer: the diagnostics in the order
      they are yielded, and whether the iteration ends by raising. *)
Record outcome := mk_outcome {
    yielded : list error;
    raises : bool }.

  (** [self._run(self._node) if self._node else ()] *)
Definition run (tree : option node) : outcome :=
    match tree with
    | Some t =>
        let r := run_trav t in
        mk_outcome (flat_map call_errors (calls r)) (raised r)
    | None => mk_outcome [] false
    end.

End ASTChecker.


(** * Vocabulary of the properties *)

(** The names [FunctionArgNamesCheck.visit_functiondef] checks, in the
    order it checks them. *)
Definition checked_names (a : ast_arguments node) : list string :=
  option_list (kwarg a) ++ option_list (vararg a) ++ get_arg_names a.

Definition is_E802 (e : error) : bool :=
  String.eqb (error_text e) (error_message E802).

(** What the walk of [find_global_defs] can see from a node: the node
    itself and, unless the node is a function or a class, what it can
    see from its children. *)
Inductive visible : node -> node -> Prop :=
| visible_here (n : node) : visible n n
| visible_below (n c m : node) :
    is_def n = false -> In c (ast_iter_nodes n) -> visible c m -> visible n m.

(** [m] is reachable in the body of [outer] without entering a nested
    function or class. *)
Definition reachable_in (outer m : node) : Prop :=
  exists c, In c (ast_iter_nodes outer) /\ visible c m.

(** [m] is a [global] statement that lists [x]. *)
Definition declares (m : node) (x : string) : Prop :=
  match m with
  | Global names _ _ => In x names
  | _ => False
  end.

(** A [global] statement reachable in [outer] lists [x]. *)
Definition declared_global (outer : node) (x : string) : Prop :=
  exists m, reachable_in outer m /\ declares m x.

(** The descendants of a node: a child, or a descendant of a child. *)
Inductive descendant : node -> node -> Prop :=
| descendant_child (n c : node) : In c (ast_iter_nodes n) -> descendant n c
| descendant_below (n c m : node) :
    In c (ast_iter_nodes n) -> descendant c m -> descendant n m.

(** ** Sample trees *)

Definition no_arguments : ast_arguments node :=
  mk_arguments [] None None [] None None [] [].

Definition positional (names : list string) : ast_arguments node :=
  mk_arguments (map (fun x => mk_arg x None) names) None None [] None None [] [].

Definition pass_stmt (lineno col_offset : Z) : node :=
  Other "Pass" [] lineno col_offset.

Definition module_of (body : list node) : node := Other "Module" body 0 0.

(** [[
class C:
    def f(x, **KW):
        pass
]] *)
Definition kw_method : node :=
  FunctionDef "f"
    (mk_arguments [mk_arg "x" None] None None [] (Some "KW") None [] [])
    [pass_stmt 3 8] [] None 2 4.

Definition kw_class : node :=
  ClassDef "C" [] [] None None [kw_method] [] 1 0.

(** [[
class C:
    def f(x, Y):
        pass
]] *)
Definition xy_method : node :=
  FunctionDef "f" (positional ["x"; "Y"]) [pass_stmt 3 8] [] None 2 4.

Definition xy_class : node :=
  ClassDef "C" [] [] None None [xy_method] [] 1 0.

(** [from os import getcwd as GETCWD] and [from m import _ as X] *)
Definition import_getcwd : node :=
  ImportFrom (Some "os") [mk_alias "getcwd" (Some "GETCWD")] (Some 0) 1 0.

Definition import_underscore : node :=
  ImportFrom (Some "m") [mk_alias "_" (Some "X")] (Some 0) 1 0.

(** A [global] statement that lists [x] can be seen from [n]. *)
Definition sees (n : node) (x : string) : Prop :=
  exists m, visible n m /\ declares m x.

(** [[
def outer():
    global x
    def inner():
        global x, y
]] *)
Definition inner_function : node :=
  FunctionDef "inner" no_arguments [Global ["x"; "y"] 4 8] [] None 3 4.

Definition outer_function : node :=
  FunctionDef "outer" no_arguments [Global ["x"] 2 4; inner_function] [] None 1 0.

(** [[
def g():
    global X
    X = 5
    Y = 5
]] *)
Definition assign_X : node :=
  Assign [Name "X" Store 3 4] (Other "Num" [] 3 8) 3 4.

Definition assign_Y : node :=
  Assign [Name "Y" Store 4 4] (Other "Num" [] 4 8) 4 4.

Definition global_X_function : node :=
  FunctionDef "g" no_arguments [Global ["X"] 2 4; assign_X; assign_Y] [] None 1 0.

(** The late decoration a statement makes, if any: the name wrapped
    and the wrapper, as in [f = staticmethod(f)]. *)
Definition late_decoration_of (n : node) : option (string * string) :=
  match n with
  | Assign _ (Call (Name func_name _ _ _) [Name meth_id _ _ _] _ _ _ _ _) _ _ =>
      if is_method_wrapper func_name then Some (meth_id, func_name) else None
  | _ => None
  end.

(** The kind [tag_class_functions] gives a child of a class, when the
    child is a function. *)
Definition tagged_role (late_decoration : gmap string string) (n : node)
  : option string :=
  match n with
  | FunctionDef fname _ _ decorator_list _ _ _ =>
      Some match late_decoration !! fname with
           | Some ft => ft
           | None =>
               match decorator_names decorator_list with
               | first :: _ => first
               | [] => "method"
               end
           end
  | _ => None
  end.

(** [[
class C:
    def f(x):
        pass
    f = staticmethod(f)
    f = classmethod(f)
]] and the same class without its last line. *)
Definition plain_f : node :=
  FunctionDef "f" (positional ["x"]) [pass_stmt 3 8] [] None 2 4.

Definition late_wrap (wrapper f : string) (lineno : Z) : node :=
  Assign [Name f Store lineno 4]
    (Call (Name wrapper Load lineno 8) [Name f Load lineno 21] [] None None lineno 8)
    lineno 4.

Definition twice_wrapped_class : node :=
  ClassDef "C" [] [] None None
    [plain_f; late_wrap "staticmethod" "f" 4; late_wrap "classmethod" "f" 5] [] 1 0.

Definition static_wrapped_class : node :=
  ClassDef "C" [] [] None None [plain_f; late_wrap "staticmethod" "f" 4] [] 1 0.

(** ** The order of a traversal *)

(** The node of a tree at a path of child indices. *)
Fixpoint node_at (n : node) (r : path) : option node :=
  match r with
  | [] => Some n
  | i :: r =>
      match ast_iter_nodes n !! i with
      | Some c => node_at c r
      | None => None
      end
  end.

(** Pre-order on the positions of a tree: a node comes before its
    descendants, and the subtree of a child before the subtrees of the
    children after it. *)
Fixpoint path_lt (p q : path) : Prop :=
  match p, q with
  | [], [] => False
  | [], _ :: _ => True
  | _ :: _, [] => False
  | i :: p, j :: q => (i < j)%nat \/ (i = j /\ path_lt p q)
  end.

(** The order of the invocations: by node in pre-order, and on one
    node by the position of the visitor in the registry. *)
Definition call_lt (c1 c2 : call) : Prop :=
  path_lt (obj_id (call_node c1)) (obj_id (call_node c2))
  \/ (obj_id (call_node c1) = obj_id (call_node c2)
      /\ (call_visitor c1 < call_visitor c2)%nat).

(** [isinstance(node, ast.FunctionDef)] *)
Definition is_functiondef (n : node) : bool :=
  match n with
  | FunctionDef _ _ _ _ _ _ _ => true
  | _ => false
  end.

(** The kinds of functions. *)
Definition function_types : list string :=
  ["function"; "method"; "classmethod"; "staticmethod"].

(** Every [function_type] attribute set is the kind of a method. *)
Definition roles_ok (st : attrs) : Prop :=
  forall (q : path) (v : string),
    function_type st !! q = Some v ->
    v = "method" \/ is_method_wrapper v = true.

(** The parents are objects above [p], and those that are functions
    have their global names. *)
Definition parents_ok (p : path) (parents : list obj) (st : attrs) : Prop :=
  forall o, In o parents ->
    (exists r, r <> [] /\ p = obj_id o ++ r)
    /\ (is_functiondef (obj_node o) = true ->
        global_names st !! obj_id o = Some (global_defs (obj_node o))).

(** The objects on the way from the object of [n] at [p] down the
    relative path [r], the end of the path excluded. *)
Fixpoint ancestors (p : path) (n : node) (r : path) : list obj :=
  match r with
  | [] => []
  | i :: r =>
      mk_obj p n ::
        match ast_iter_nodes n !! i with
        | Some c => ancestors (p ++ [i]) c r
        | None => []
        end
  end.

(** One invocation of a traversal below the object [o], entered with
    the parents [base]: the node is the one at its position in the
    tree, the parents are [base] and then the objects from [o] down to
    the node, the visitor is registered and has the method for the
    kind of the node, and the result is what that method returns on
    the arguments. *)
Definition call_ok (visitors : list check) (base : list obj) (o : obj) (c : call)
  : Prop :=
  (exists r, obj_id (call_node c) = obj_id o ++ r
             /\ node_at (obj_node o) r = Some (obj_node (call_node c))
             /\ call_parents c = base ++ ancestors (obj_id o) (obj_node o) r)
  /\ (exists v h, visitors !! call_visitor c = Some v
                  /\ check_method v (visit_method (obj_node (call_node c))) = Some h
                  /\ call_result c = h (call_attrs c) (call_node c) (call_parents c)).

(** The positions below [p], and those in the subtrees of the children
    of [p] from the [k]-th on. *)
Definition below (p q : path) : Prop := p `prefix_of` q.
Definition strictly_below (p q : path) : Prop :=
  exists r, r <> [] /\ q = p ++ r.
Definition below_from (p : path) (k : nat) (q : path) : Prop :=
  exists i r, (k <= i)%nat /\ q = p ++ i :: r.
Definition strictly_below_from (p : path) (k : nat) (q : path) : Prop :=
  exists i r, (k <= i)%nat /\ r <> [] /\ q = p ++ i :: r.

(** What a part of a traversal does, from the state [t] to the state
    [t'], [new] being the invocations it makes: [Wg] and [Wf] are the
    positions where it may set [global_names] and [function_type]. *)
Record trav_facts (visitors : list check) (base : list obj) (o : obj)
    (Wg Wf : path -> Prop) (t t' : trav) (new : list call) : Prop := {
  tf_calls : calls t' = calls t ++ new;
  tf_sorted : StronglySorted call_lt new;
  tf_call_ok : forall c, In c new ->
    Wg (obj_id (call_node c)) /\ call_ok visitors base o c;
  tf_parents : raised t' = false -> parents_deque t' = parents_deque t;
  tf_frame_global_names : forall q, ~ Wg q ->
    global_names (node_attrs t') !! q = global_names (node_attrs t) !! q;
  tf_frame_function_type : forall q, ~ Wf q ->
    function_type (node_attrs t') !! q = function_type (node_attrs t) !! q;
  tf_stable : forall c, In c new ->
    forall q, q `prefix_of` obj_id (call_node c) ->
      function_type (call_attrs c) !! q = function_type (node_attrs t') !! q
      /\ global_names (call_attrs c) !! q = global_names (node_attrs t') !! q;
  tf_assigned : forall c, In c new ->
    forall o', In o' (call_node c :: call_parents c) ->
      obj_id o' `prefix_of` obj_id (call_node c)
      /\ (is_functiondef (obj_node o') = true ->
          global_names (call_attrs c) !! obj_id o'
          = Some (global_defs (obj_node o')));
  tf_roles : roles_ok (node_attrs t');
  tf_call_roles : forall c, In c new -> roles_ok (call_attrs c);
  tf_complete : raised t' = false ->
    forall r n i v h,
      Wg (obj_id o ++ r) ->
      node_at (obj_node o) r = Some n ->
      visitors !! i = Some v ->
      check_method v (visit_method n) = Some h ->
      exists c, In c new /\ obj_id (call_node c) = obj_id o ++ r
                /\ call_visitor c = i }.

(** The parents at the children of [p]: objects at or above [p], the
    functions among them with their global names. *)
Definition parents_above (p : path) (parents : list obj) (st : attrs) : Prop :=
  forall o, In o parents ->
    obj_id o `prefix_of` p
    /\ (is_functiondef (obj_node o) = true ->
        global_names st !! obj_id o = Some (global_defs (obj_node o))).

(** The invocations of the run on [xy_class], and the one of
    [FunctionArgNamesCheck] on its method. *)
Definition xy_calls : list call :=
  calls (run_trav BaseASTCheck_checks (module_of [xy_class])).

Definition xy_call : call :=
  nth 2 xy_calls (mk_call 0 no_attrs (mk_obj [] (module_of [])) [] None).

(** [[
class myClass:
    def Bad(x, Y):
        Z = 1
def Free():
    pass
from os import getcwd as GETCWD
]] *)
Definition sample_module : node :=
  module_of
    [ ClassDef "myClass" [] [] None None
        [ FunctionDef "Bad" (positional ["x"; "Y"])
            [ Assign [Name "Z" Store 3 8] (Other "Num" [] 3 12) 3 8 ]
            [] None 2 4 ]
        [] 1 0;
      FunctionDef "Free" no_arguments [pass_stmt 5 4] [] None 4 0;
      ImportFrom (Some "os") [mk_alias "getcwd" (Some "GETCWD")] (Some 0) 6 0 ].


(** * Vocabulary of the further properties *)

(** A decorator that is the bare name [classmethod] or [staticmethod]. *)
Definition is_wrapper_decorator (d : node) : bool :=
  match d with
  | Name id _ _ _ => is_method_wrapper id
  | _ => false
  end.

(** [[
class C:
    @property
    @staticmethod
    @classmethod
    def f(x):
        pass
]] *)
Definition decorated_f : node :=
  FunctionDef "f" (positional ["x"]) [pass_stmt 5 8]
    [Name "property" Load 1 5; Name "staticmethod" Load 2 5;
     Name "classmethod" Load 3 5] None 4 4.

Definition decorated_class : node :=
  ClassDef "C" [] [] None None [decorated_f] [] 0 0.

(** [isinstance(node, ast.ClassDef)] and [isinstance(node, ast.Name)] *)
Definition is_classdef (n : node) : bool :=
  match n with
  | ClassDef _ _ _ _ _ _ _ _ _ => true
  | _ => false
  end.

Definition is_name (n : node) : bool :=
  match n with
  | Name _ _ _ _ => true
  | _ => false
  end.

(** [[
def g():
    global x
    x = Y = 1
]] the assignment, with the function as its parent. *)
Definition assign_x_Y : node :=
  Assign [Name "x" Store 3 4; Name "Y" Store 3 8] (Other "Num" [] 3 12) 3 4.

Definition global_x_function : node :=
  FunctionDef "g" no_arguments [Global ["x"] 2 4; assign_x_Y] [] None 1 0.

(** Every character of a string is in a class. *)
Fixpoint all_chars (cls : ascii -> bool) (s : string) : bool :=
  match s with
  | EmptyString => true
  | String c s => cls c && all_chars cls s
  end.

(** A string of characters of [rest] after a character of [first],
    possibly followed by one newline. *)
Definition first_then_rest (first rest : ascii -> bool) (s : string) : Prop :=
  exists c w,
    (s = String c w \/ s = String c (w ++ String newline ""))
    /\ first c = true /\ all_chars rest w = true.

(** [[
class C:
    def f(x):
        pass
    f = staticmethod(f)
    g = classmethod(f)
]] *)
Definition rewrapped_class : node :=
  ClassDef "C" [] [] None None
    [plain_f; late_wrap "staticmethod" "f" 4;
     Assign [Name "g" Store 5 4]
       (Call (Name "classmethod" Load 5 8) [Name "f" Load 5 20] [] None None 5 8)
       5 4] [] 1 0.

(** * Properties *)

(** ** The size of trees *)
Lemma sum_sizes_app {A} (f : A -> nat) (l1 l2 : list A) :
  sum_sizes f (l1 ++ l2) = (sum_sizes f l1 + sum_sizes f l2)%nat.
Proof. induction l1 as [|x l1 IH]; simpl; [reflexivity | rewrite IH; lia]. Qed.

Lemma sum_sizes_map {A B} (f : B -> nat) (g : A -> B) (l : list A) :
  sum_sizes f (map g l) = sum_sizes (fun x => f (g x)) l.
Proof. induction l as [|x l IH]; simpl; [reflexivity | rewrite IH; reflexivity]. Qed.

Lemma sum_sizes_ext {A} (f g : A -> nat) (l : list A) :
  (forall x, f x = g x) -> sum_sizes f l = sum_sizes g l.
Proof. intros E. induction l as [|x l IH]; simpl; [reflexivity | rewrite E, IH; reflexivity]. Qed.

Lemma sum_sizes_opt_node (o : option node) :
  sum_sizes node_size (opt_node o) = opt_size node_size o.
Proof. destruct o; simpl; lia. Qed.

Lemma sum_sizes_opt_nodes (l : list (option node)) :
  sum_sizes node_size (opt_nodes l) = sum_sizes (opt_size node_size) l.
Proof.
  induction l as [|o l IH]; simpl; [reflexivity |].
  unfold opt_nodes in *. rewrite sum_sizes_app, sum_sizes_opt_node, IH. reflexivity.
Qed.

Lemma sum_sizes_const_1 {A} (l : list A) :
  sum_sizes (fun _ => 1%nat) l = length l.
Proof. induction l as [|x l IH]; simpl; [reflexivity | rewrite IH; reflexivity]. Qed.

(** A node is one more than its children together. *)
Lemma node_size_children (n : node) :
  node_size n = S (sum_sizes node_size (ast_iter_nodes n)).
Proof.
  destruct n; simpl;
    repeat (rewrite ?sum_sizes_app, ?sum_sizes_map, ?sum_sizes_opt_node,
              ?sum_sizes_opt_nodes; simpl);
    rewrite ?sum_sizes_const_1; lia.
Qed.

Lemma sum_sizes_In {A} (f : A -> nat) (l : list A) (x : A) :
  In x l -> (f x <= sum_sizes f l)%nat.
Proof.
  induction l as [|y l IH]; simpl; [tauto |].
  intros [-> | H]; [lia | specialize (IH H); lia].
Qed.

Lemma child_smaller (n c : node) :
  In c (ast_iter_nodes n) -> (node_size c < node_size n)%nat.
Proof.
  intros H. rewrite (node_size_children n).
  pose proof (sum_sizes_In node_size _ _ H). lia.
Qed.

(** Induction on trees: a property that passes from the children of a
    node to the node holds of every node. *)
Lemma node_children_ind (P : node -> Prop) :
  (forall n, (forall c, In c (ast_iter_nodes n) -> P c) -> P n) ->
  forall n, P n.
Proof.
  intros step n.
  remember (node_size n) as k eqn:Hk.
  revert n Hk. induction k as [k IH] using lt_wf_ind.
  intros n ->. apply step. intros c Hc.
  apply (IH (node_size c)); [apply child_smaller; exact Hc | reflexivity].
Qed.


(** ** Diagnostic positions *)

(** C6: a diagnostic built for a [ClassDef] with [d] decorators is at
    the line of the node plus [d] and its column plus 6; for a
    [FunctionDef] with [d] decorators at the line plus [d] and the
    column plus 4; a class under two decorators is reported two lines
    down and six columns right. *)
Theorem err_position_of_definitions :
  (forall self cname bases keywords starargs kwargs body decorator_list
          lineno col_offset c,
      let e := _err self (ClassDef cname bases keywords starargs kwargs body
                            decorator_list lineno col_offset) c in
      error_lineno e = lineno + Z.of_nat (length decorator_list)
      /\ error_col_offset e = col_offset + 6)
  /\ (forall self fname fargs body decorator_list returns lineno col_offset c,
      let e := _err self (FunctionDef fname fargs body decorator_list returns
                            lineno col_offset) c in
      error_lineno e = lineno + Z.of_nat (length decorator_list)
      /\ error_col_offset e = col_offset + 4)
  /\ (forall self cname bases keywords starargs kwargs body d1 d2
          lineno col_offset c,
      let e := _err self (ClassDef cname bases keywords starargs kwargs body
                            [d1; d2] lineno col_offset) c in
      error_lineno e = lineno + 2 /\ error_col_offset e = col_offset + 6).
Proof.
  repeat split; reflexivity.
Qed.

(** ** The argument names of a function *)

Section ArgNamesLemmas.
Import FunctionArgNamesCheck.

Lemma check_arg_names_cases (n : node) (arg_names : list string) :
    (forallb check_ arg_names = true /\ check_arg_names n arg_names = [])
    \/ (forallb check_ arg_names = false
        /\ check_arg_names n arg_names = [_err self n E802]).
Proof.
    induction arg_names as [|a l IH]; simpl; [left; split; reflexivity |].
    destruct (check_ a); simpl; [exact IH | right; split; reflexivity].
Qed.

Lemma forallb_false_exists {A} (f : A -> bool) (l : list A) :
    forallb f l = false <-> exists x, In x l /\ f x = false.
Proof.
    induction l as [|a l IH]; simpl.
    - split; [discriminate | intros (x & [] & _)].
    - rewrite andb_false_iff, IH. split.
      + intros [H | (x & Hx & Hf)]; [exists a; tauto | exists x; tauto].
      + intros (x & [-> | Hx] & Hf); [left; exact Hf | right; exists x; tauto].
Qed.

Lemma fails_check_spec (x : option string) :
    fails_check x = true <-> exists s, In s (option_list x) /\ check_ s = false.
Proof.
    destruct x as [s|]; simpl.
    - rewrite negb_true_iff. split.
      + intros H. exists s. tauto.
      + intros (s' & [-> | []] & H). exact H.
    - split; [discriminate | intros (s & [] & _)].
Qed.
End ArgNamesLemmas.

Section ArgNamesProperties.
Import FunctionArgNamesCheck.

Variables (st : attrs) (p : path) (parents : list obj).
Variables (fname : string) (fargs : ast_arguments node).
Variables (body decorator_list : list node) (returns : option node).
Variables (lineno col_offset : Z).

Let n := FunctionDef fname fargs body decorator_list returns lineno col_offset.
Let e802 := _err self n E802.

Lemma first_errors_not_E802 ft first e :
    In e (first_errors ft first n) -> is_E802 e = false.
Proof.
    unfold first_errors.
    destruct (String.eqb ft "method").
    - destruct (negb _); simpl; [intros [<- | []]; reflexivity | tauto].
    - destruct (String.eqb ft "classmethod"); [| simpl; tauto].
      destruct (negb _); simpl; [intros [<- | []]; reflexivity | tauto].
Qed.

Lemma filter_E802_first_errors ft first :
    filter is_E802 (first_errors ft first n) = [].
Proof.
    unfold first_errors.
    destruct (String.eqb ft "method"); [destruct (negb _); reflexivity |].
    destruct (String.eqb ft "classmethod"); [destruct (negb _); reflexivity | reflexivity].
Qed.

  (** The method on a function node, case by case. *)
Lemma visit_functiondef_cases :
    visit_functiondef st (mk_obj p n) parents =
      Some (if fails_check (kwarg fargs) then [e802]
            else if fails_check (vararg fargs) then [e802]
            else match get_arg_names fargs with
                 | [] => []
                 | first :: _ =>
                     first_errors (getattr_function_type st (mk_obj p n)) first n
                       ++ check_arg_names n (get_arg_names fargs)
                 end).
Proof.
    unfold visit_functiondef, first_errors. simpl.
    destruct (fails_check (kwarg fargs)); [reflexivity |].
    destruct (fails_check (vararg fargs)); [reflexivity |].
    destruct (get_arg_names fargs); reflexivity.
Qed.

  (** C10: the method yields at most one E802 diagnostic for a
      function; it is yielded exactly when one of the names checked
      (the [**kwargs] name, the [*args] name, the positional and
      keyword-only names) fails the lowercase test, whatever the number
      of failing names; and when the [**kwargs] or the [*args] name
      fails, that diagnostic is all the method yields, the tests of
      the first argument being skipped. *)
Theorem arg_names_single_E802 :
    exists errs,
      visit_functiondef st (mk_obj p n) parents = Some errs
      /\ (length (filter is_E802 errs) <= 1)%nat
      /\ (forall e, In e errs -> is_E802 e = true -> e = e802)
      /\ (In e802 errs <->
          exists x, In x (checked_names fargs) /\ check_ x = false)
      /\ (fails_check (kwarg fargs) = true \/ fails_check (vararg fargs) = true ->
          errs = [e802])
      /\ (fails_check (kwarg fargs) = false ->
          fails_check (vararg fargs) = false ->
          forall first rest, get_arg_names fargs = first :: rest ->
          errs = first_errors (getattr_function_type st (mk_obj p n)) first n
                 ++ check_arg_names n (get_arg_names fargs)).
Proof.
    eexists. split; [apply visit_functiondef_cases |].
    unfold checked_names.
    pose proof (fails_check_spec (kwarg fargs)) as Hkw.
    pose proof (fails_check_spec (vararg fargs)) as Hva.
    destruct (fails_check (kwarg fargs)) eqn:Ekw.
    { repeat split.
      - simpl. lia.
      - intros e [<- | []] _. reflexivity.
      - intros _. destruct (proj1 Hkw eq_refl) as (s & Hs & Hc).
        exists s. split; [apply in_or_app; left; exact Hs | exact Hc].
      - intros _. left. reflexivity.
      - discriminate. }
    destruct (fails_check (vararg fargs)) eqn:Eva.
    { repeat split.
      - simpl. lia.
      - intros e [<- | []] _. reflexivity.
      - intros _. destruct (proj1 Hva eq_refl) as (s & Hs & Hc).
        exists s. split; [| exact Hc].
        apply in_or_app; right. apply in_or_app; left. exact Hs.
      - intros _. left. reflexivity.
      - discriminate. }
    assert (Hnone : forall x, In x (option_list (kwarg fargs)
                                   ++ option_list (vararg fargs)
                                   ++ get_arg_names fargs) ->
                           check_ x = false -> In x (get_arg_names fargs)).
    { intros x Hx Hc. apply in_app_or in Hx. destruct Hx as [Hx | Hx].
      - assert (false = true) by (apply Hkw; exists x; tauto). discriminate.
      - apply in_app_or in Hx. destruct Hx as [Hx | Hx]; [| exact Hx].
        assert (false = true) by (apply Hva; exists x; tauto). discriminate. }
    destruct (get_arg_names fargs) as [|first rest] eqn:Enames.
    { repeat split.
      - simpl. lia.
      - intros e [].
      - intros [].
      - intros (x & Hx & Hc). destruct (Hnone x Hx Hc).
      - intros [H | H]; discriminate.
      - intros _ _ first rest. discriminate. }
    set (fe := first_errors _ first n).
    pose proof (check_arg_names_cases n (first :: rest)) as Hcases.
    repeat split.
    - rewrite filter_app. subst fe. rewrite filter_E802_first_errors.
      destruct Hcases as [[_ ->] | [_ ->]]; simpl; lia.
    - intros e He Hi. apply in_app_or in He. destruct He as [He | He].
      + subst fe. rewrite (first_errors_not_E802 _ _ _ He) in Hi. discriminate.
      + destruct Hcases as [[_ Hc] | [_ Hc]]; rewrite Hc in He;
          simpl in He; [tauto | destruct He as [<- | []]; reflexivity].
    - intros He. apply in_app_or in He. destruct He as [He | He].
      + subst fe. apply first_errors_not_E802 in He. discriminate.
      + destruct Hcases as [[_ Hc] | [Hf Hc]]; rewrite Hc in He;
          [destruct He |].
        apply forallb_false_exists in Hf. destruct Hf as (x & Hx & Hf).
        exists x. split; [| exact Hf].
        apply in_or_app; right. apply in_or_app; right. exact Hx.
    - intros (x & Hx & Hc). apply in_or_app; right.
      destruct Hcases as [[Hf _] | [_ ->]]; [| left; reflexivity].
      rewrite forallb_forall in Hf. specialize (Hf x (Hnone x Hx Hc)).
      congruence.
    - intros [H | H]; discriminate.
    - intros _ _ first' rest' E. injection E as <- <-. reflexivity.
Qed.

End ArgNamesProperties.


Section ArgNamesMethod.
Import FunctionArgNamesCheck.

Variables (st : attrs) (p : path) (parents : list obj).
Variables (fname : string) (fargs : ast_arguments node).
Variables (body decorator_list : list node) (returns : option node).
Variables (lineno col_offset : Z).

Let n := FunctionDef fname fargs body decorator_list returns lineno col_offset.

(** C7, as amended: for a function tagged a method whose [**kwargs]
    and [*args] names pass the lowercase test and whose first
    positional argument is not [self], the method yields the E804
    diagnostic first; the lowercase test of the argument names goes on
    after it, and yields E802 as well exactly when one of them fails. *)
Theorem method_first_argument_not_self (first : ast_arg node) (rest : list (ast_arg node)) :
  getattr_function_type st (mk_obj p n) = "method" ->
  fails_check (kwarg fargs) = false ->
  fails_check (vararg fargs) = false ->
  args fargs = first :: rest ->
  arg first <> "self" ->
  exists others,
    visit_functiondef st (mk_obj p n) parents = Some (_err self n E804 :: others)
    /\ ((exists x, In x (get_arg_names fargs) /\ check_ x = false) ->
        others = [_err self n E802])
    /\ ((forall x, In x (get_arg_names fargs) -> check_ x = true) ->
        others = []).
Proof.
  unfold n. intros Hft Hkw Hva Hargs Hfirst.
  eexists (check_arg_names _ (get_arg_names fargs)).
  split.
  - rewrite visit_functiondef_cases. rewrite Hkw, Hva, Hft.
    unfold get_arg_names. rewrite Hargs. simpl map. simpl app at 1.
    unfold first_errors. simpl String.eqb at 1.
    apply String.eqb_neq in Hfirst. rewrite Hfirst. reflexivity.
  - match goal with |- context [check_arg_names ?m _] =>
      destruct (check_arg_names_cases m (get_arg_names fargs)) as [[Hf ->] | [Hf ->]]
    end.
    + split; [| reflexivity].
      intros (x & Hx & Hc). rewrite forallb_forall in Hf.
      rewrite (Hf x Hx) in Hc. discriminate.
    + split; [reflexivity |].
      intros Hall. apply forallb_false_exists in Hf. destruct Hf as (x & Hx & Hc).
      rewrite (Hall x Hx) in Hc. discriminate.
Qed.

End ArgNamesMethod.

Lemma method_first_argument_not_self_witness :
  exists others,
    FunctionArgNamesCheck.visit_functiondef
      (tag_class_functions (mk_obj [0%nat] xy_class) no_attrs)
      (mk_obj [0%nat; 0%nat] xy_method) [] =
      Some (_err FunctionArgNamesCheck.self xy_method E804 :: others)
    /\ ((exists x, In x (get_arg_names (positional ["x"; "Y"]))
                   /\ FunctionArgNamesCheck.check_ x = false) ->
        others = [_err FunctionArgNamesCheck.self xy_method E802])
    /\ ((forall x, In x (get_arg_names (positional ["x"; "Y"])) ->
                   FunctionArgNamesCheck.check_ x = true) ->
        others = []).
Proof.
  apply (method_first_argument_not_self
           (tag_class_functions (mk_obj [0%nat] xy_class) no_attrs)
           [0%nat; 0%nat] [] "f" (positional ["x"; "Y"]) [pass_stmt 3 8] [] None 2 4
           (mk_arg "x" None) [mk_arg "Y" None]).
  - vm_compute. reflexivity.
  - reflexivity.
  - reflexivity.
  - reflexivity.
  - simpl. discriminate.
Defined.

(** C7 as stated fails: [f] is a method whose first argument is [x],
    yet the failing [**KW] ends the method before the test of the
    first argument, and E802 is all that is yielded, by the method and
    by the whole run. *)
Lemma method_first_argument_counterexample :
  let st := tag_class_functions (mk_obj [0%nat] kw_class) no_attrs in
  let f := mk_obj [0%nat; 0%nat] kw_method in
  getattr_function_type st f = "method"
  /\ match kw_method with
     | FunctionDef _ fargs _ _ _ _ _ => map arg (args fargs) = ["x"]
     | _ => False
     end
  /\ FunctionArgNamesCheck.visit_functiondef st f [mk_obj [] (module_of [kw_class]); mk_obj [0%nat] kw_class]
     = Some [(2, 8, "E802 argument name should be lowercase", "FunctionArgNamesCheck")]
  /\ yielded (run BaseASTCheck_checks (Some (module_of [kw_class])))
     = [(2, 8, "E802 argument name should be lowercase", "FunctionArgNamesCheck")]
  /\ ~ In (_err FunctionArgNamesCheck.self kw_method E804)
          (yielded (run BaseASTCheck_checks (Some (module_of [kw_class])))).
Proof.
  vm_compute. repeat split.
  intros [H | []]. discriminate H.
Qed.

(** ** The absent tree *)

(** C3: without a tree, [run] yields nothing and does not raise,
    whatever the registered checks. *)
Theorem run_without_tree (visitors : list check) :
  run visitors None = mk_outcome [] false.
Proof. reflexivity. Qed.

(** ** Imports under another name *)

Section ImportAs.
Import ImportAsCheck.

(** C8, as amended: an imported name that passes the lowercase test
    and not the uppercase test, under an alias that does not pass the
    lowercase test, makes the method yield the W801 diagnostic, and
    that diagnostic only for this name; and for
    [from os import getcwd as GETCWD] the method yields W801 and
    nothing else. *)
Theorem lowercase_imported_as_non_lowercase
    (st : attrs) (p : path) (parents : list obj)
    (module : option string) (names : list ast_alias) (level : option Z)
    (lineno col_offset : Z) (a : ast_alias) (alias_ : string) :
  let n := ImportFrom module names level lineno col_offset in
  In a names ->
  asname a = Some alias_ ->
  alias_ <> "" ->
  check_lower (name a) = true ->
  check_upper (name a) = false ->
  check_lower alias_ = false ->
  visit_alias n a = [_err self n W801]
  /\ (exists errs,
        visit_importfrom st (mk_obj p n) parents = Some errs
        /\ In (_err self n W801) errs)
  /\ visit_importfrom st (mk_obj p import_getcwd) parents
     = Some [(1, 0, "W801 lowercase imported as non lowercase", "ImportAsCheck")].
Proof.
  intros n Hin Has Hne Hlow Hup Hal.
  assert (Hone : visit_alias n a = [_err self n W801]).
  { unfold visit_alias. rewrite Has.
    apply String.eqb_neq in Hne. rewrite Hne, Hup, Hlow, Hal. reflexivity. }
  split; [exact Hone |]. split; [| reflexivity].
  eexists. split; [reflexivity |].
  apply in_flat_map. exists a. split; [exact Hin |].
  simpl obj_node. fold n. rewrite Hone. left. reflexivity.
Qed.

End ImportAs.

Lemma lowercase_imported_as_non_lowercase_witness :
  ImportAsCheck.visit_alias import_getcwd (mk_alias "getcwd" (Some "GETCWD"))
    = [_err ImportAsCheck.self import_getcwd W801]
  /\ (exists errs,
        ImportAsCheck.visit_importfrom no_attrs (mk_obj [0%nat] import_getcwd) []
          = Some errs
        /\ In (_err ImportAsCheck.self import_getcwd W801) errs)
  /\ ImportAsCheck.visit_importfrom no_attrs (mk_obj [0%nat] import_getcwd) []
     = Some [(1, 0, "W801 lowercase imported as non lowercase", "ImportAsCheck")].
Proof.
  apply (lowercase_imported_as_non_lowercase no_attrs [0%nat] []
           (Some "os") [mk_alias "getcwd" (Some "GETCWD")] (Some 0) 1 0
           (mk_alias "getcwd" (Some "GETCWD")) "GETCWD").
  - simpl. left. reflexivity.
  - reflexivity.
  - discriminate.
  - reflexivity.
  - reflexivity.
  - reflexivity.
Defined.

(** C8 as stated fails: in [from m import _ as X] the name [_] passes
    the lowercase test and the alias [X] does not, but [_] passes the
    uppercase test as well, which is tried first, and nothing is
    yielded. *)
Lemma lowercase_imported_counterexample :
  ImportAsCheck.check_lower "_" = true
  /\ ImportAsCheck.check_lower "X" = false
  /\ ImportAsCheck.visit_importfrom no_attrs (mk_obj [0%nat] import_underscore)
       [mk_obj [] (module_of [import_underscore])] = Some []
  /\ yielded (run BaseASTCheck_checks (Some (module_of [import_underscore]))) = [].
Proof. vm_compute. repeat split. Qed.

(** ** The names declared global *)

Lemma node_size_pos (n : node) : (1 <= node_size n)%nat.
Proof. rewrite node_size_children. lia. Qed.

Lemma sum_sizes_zero (d : list node) : sum_sizes node_size d = O -> d = [].
Proof.
  destruct d as [|n d]; [reflexivity |]. simpl.
  pose proof (node_size_pos n). lia.
Qed.

Lemma deque_pop_None {A} (d : list A) : deque_pop d = None -> d = [].
Proof.
  unfold deque_pop. destruct (rev d) eqn:E; [| discriminate].
  intros _. rewrite <- (rev_involutive d), E. reflexivity.
Qed.

Lemma deque_pop_Some {A} (d d' : list A) (x : A) :
  deque_pop d = Some (x, d') -> d = d' ++ [x].
Proof.
  unfold deque_pop. destruct (rev d) as [|y r] eqn:E; [discriminate |].
  intros H. injection H as <- <-.
  rewrite <- (rev_involutive d), E. reflexivity.
Qed.

Lemma sees_unfold (n : node) (x : string) :
  sees n x <->
  declares n x \/ (is_def n = false /\ exists c, In c (ast_iter_nodes n) /\ sees c x).
Proof.
  split.
  - intros (m & Hv & Hd). inversion Hv as [|? c ? Hdef Hc Hcm]; subst.
    + left. exact Hd.
    + right. split; [exact Hdef |]. exists c. split; [exact Hc |].
      exists m. split; assumption.
  - intros [Hd | (Hdef & c & Hc & m & Hv & Hd)].
    + exists n. split; [constructor | exact Hd].
    + exists m. split; [| exact Hd]. econstructor; eassumption.
Qed.

Lemma declares_update (n : node) (acc : gset string) (x : string) :
  x ∈ match n with
      | Global names _ _ => acc ∪ list_to_set names
      | _ => acc
      end <-> x ∈ acc \/ declares n x.
Proof.
  destruct n; simpl; try tauto.
  rewrite elem_of_union, elem_of_list_to_set, list_elem_of_In. tauto.
Qed.

(** The loop adds to its accumulator exactly what can be seen from the
    nodes of the deque, provided the fuel covers them. *)
Lemma global_defs_loop_spec (fuel : nat) :
  forall (d : list node) (acc : gset string),
    (sum_sizes node_size d <= fuel)%nat ->
    forall x, x ∈ global_defs_loop fuel d acc <->
              x ∈ acc \/ exists n, In n d /\ sees n x.
Proof.
  induction fuel as [|fuel IH]; intros d acc Hfuel x.
  - assert (d = []) as -> by (apply sum_sizes_zero; lia).
    simpl. split; [tauto | intros [H | (n & [] & _)]; exact H].
  - simpl. destruct (deque_pop d) as [[n d']|] eqn:Epop.
    + apply deque_pop_Some in Epop. subst d.
      rewrite sum_sizes_app in Hfuel. simpl in Hfuel.
      rewrite (node_size_children n) in Hfuel.
      rewrite IH.
      * rewrite declares_update.
        destruct (is_def n) eqn:Edef.
        -- split.
           ++ intros [[H | H] | (k & Hk & Hs)]; [tauto | |].
              ** right. exists n. split; [apply in_or_app; right; left; reflexivity |].
                 apply sees_unfold. tauto.
              ** right. exists k. split; [apply in_or_app; tauto | exact Hs].
           ++ intros [H | (k & Hk & Hs)]; [tauto |].
              apply in_app_or in Hk. destruct Hk as [Hk | [<- | []]].
              ** right. exists k. tauto.
              ** apply sees_unfold in Hs. destruct Hs as [Hs | [Hf _]]; [tauto | congruence].
        -- split.
           ++ intros [[H | H] | (k & Hk & Hs)]; [tauto | |].
              ** right. exists n. split; [apply in_or_app; right; left; reflexivity |].
                 apply sees_unfold. tauto.
              ** apply in_app_or in Hk. destruct Hk as [Hk | Hk].
                 --- right. exists k. split; [apply in_or_app; tauto | exact Hs].
                 --- right. exists n. split; [apply in_or_app; right; left; reflexivity |].
                     apply sees_unfold. right. split; [exact Edef |]. exists k. tauto.
           ++ intros [H | (k & Hk & Hs)]; [tauto |].
              apply in_app_or in Hk. destruct Hk as [Hk | [<- | []]].
              ** right. exists k. split; [apply in_or_app; tauto | exact Hs].
              ** apply sees_unfold in Hs. destruct Hs as [Hs | (_ & c & Hc & Hs)]; [tauto |].
                 right. exists c. split; [apply in_or_app; tauto | exact Hs].
      * destruct (is_def n); [lia |]. rewrite sum_sizes_app. lia.
    + apply deque_pop_None in Epop. subst d.
      split; [tauto | intros [H | (n & [] & _)]; exact H].
Qed.

(** The set computed for a node holds exactly the names declared
    global in its body, nested functions and classes apart. *)
Lemma global_defs_spec (outer : node) (x : string) :
  x ∈ global_defs outer <-> declared_global outer x.
Proof.
  unfold global_defs. rewrite global_defs_loop_spec.
  - rewrite elem_of_empty. unfold declared_global, reachable_in, sees. split.
    + intros [[] | (c & Hc & m & Hv & Hd)]. exists m. split; [exists c; tauto | exact Hd].
    + intros (m & (c & Hc & Hv) & Hd). right. exists c. split; [exact Hc |].
      exists m. tauto.
  - rewrite (node_size_children outer). lia.
Qed.

(** The walk does not look below a function or a class. *)
Lemma visible_from_def (d m : node) :
  is_def d = true -> visible d m -> m = d.
Proof.
  intros Hd Hv. inversion Hv; subst; [reflexivity | congruence].
Qed.

(** C2, as amended: the set attached to a function holds exactly the
    names listed by the [global] statements reachable in its body
    without entering a nested function or class; the walk sees nothing
    below a nested function or class, so a name declared global there
    is left out unless a reachable statement lists it too. *)
Theorem global_names_scope_bounded
    (st : attrs) (p : path) (fname : string) (fargs : ast_arguments node)
    (body decorator_list : list node) (returns : option node)
    (lineno col_offset : Z) :
  let outer := FunctionDef fname fargs body decorator_list returns lineno col_offset in
  global_names (find_global_defs (mk_obj p outer) st) !! p = Some (global_defs outer)
  /\ (forall x, x ∈ global_defs outer <-> declared_global outer x)
  /\ (forall x, ~ declared_global outer x -> x ∉ global_defs outer)
  /\ (forall d m, is_def d = true -> visible d m -> m = d).
Proof.
  intros outer. split; [| split; [| split]].
  - unfold find_global_defs, set_global_names. simpl. apply lookup_insert_eq.
  - intros x. apply global_defs_spec.
  - intros x Hn Hx. apply Hn. apply global_defs_spec. exact Hx.
  - apply visible_from_def.
Qed.

(** C2 as stated fails: [inner], nested in [outer], declares [x]
    global, and [x] is in the set of [outer], whose own body declares
    it too; [y], declared in [inner] only, is not. *)
Lemma global_names_counterexample :
  In inner_function (ast_iter_nodes outer_function)
  /\ In (Global ["x"; "y"] 4 8) (ast_iter_nodes inner_function)
  /\ "x" ∈ global_defs outer_function
  /\ "y" ∉ global_defs outer_function.
Proof.
  assert (E : elements (global_defs outer_function) = ["x"])
    by (vm_compute; reflexivity).
  split; [simpl; tauto |]. split; [simpl; tauto |].
  rewrite <- !elem_of_elements, E. split.
  - apply list_elem_of_In. left. reflexivity.
  - intros H. apply list_elem_of_In in H. destruct H as [H | []]. discriminate H.
Qed.

(** ** Local variables *)

Section LocalVariables.
Import VariablesInFunctionCheck.

(** C9: for an assignment to one named target whose (non-empty) name
    fails the lowercase test and does not start with an underscore,
    the nearest enclosing definition being a function, the method
    yields one diagnostic, at the target, when the name is not in the
    set of global names of that function, and none when it is; it is
    in that set as soon as a [global] statement of the function lists
    it. *)
Theorem local_variable_flagged
    (st : attrs) (p : path) (parents : list obj) (parent_func : obj)
    (names : gset string) (id : string) (ctx : expr_context) (value : node)
    (tl tc lineno col_offset : Z) :
  let target := Name id ctx tl tc in
  let node := mk_obj p (Assign [target] value lineno col_offset) in
  find_parent_func (rev parents) = Some parent_func ->
  global_names st !! obj_id parent_func = Some names ->
  id <> "" ->
  check_ id = false ->
  str_take 1 id <> "_" ->
  (id ∉ names -> visit_assign st node parents = Some [_err self target E805])
  /\ (id ∈ names -> visit_assign st node parents = Some [])
  /\ (names = global_defs (obj_node parent_func) ->
      declared_global (obj_node parent_func) id ->
      visit_assign st node parents = Some []).
Proof.
  intros target node Hpf Hg Hne Hck Hus.
  assert (Hin : id ∈ names -> visit_assign st node parents = Some []).
  { intros Hin. unfold visit_assign. rewrite Hpf. simpl.
    apply String.eqb_neq in Hne. rewrite Hne, Hg.
    rewrite bool_decide_eq_true_2 by exact Hin. reflexivity. }
  split; [| split; [exact Hin |]].
  - intros Hnotin. unfold visit_assign. rewrite Hpf. simpl.
    apply String.eqb_neq in Hne. rewrite Hne, Hg.
    rewrite bool_decide_eq_false_2 by exact Hnotin.
    rewrite Hck. apply String.eqb_neq in Hus. rewrite Hus. reflexivity.
  - intros -> Hd. apply Hin. apply global_defs_spec. exact Hd.
Qed.

End LocalVariables.

(** ** The kinds of the functions of a class *)

Lemma late_decoration_step_spec (late : gmap string string) (n : node) :
  late_decoration_step late n =
    match late_decoration_of n with
    | Some (meth_id, func_name) => <[meth_id := func_name]> late
    | None => late
    end.
Proof.
  destruct n as [| | | |targets value ? ?| | | | | | |]; try reflexivity.
  destruct value as [| | | | |func cargs ? ? ? ? ?| | | | | |]; try reflexivity.
  destruct func as [| | | | | |func_name ? ? ?| | | | |]; try reflexivity.
  simpl. destruct (is_method_wrapper func_name); [| destruct cargs as [|[] []]; reflexivity].
  destruct cargs as [|a cargs]; [reflexivity |].
  destruct a; try reflexivity; destruct cargs; reflexivity.
Qed.

Lemma late_decorations_keep (f : string) (post : list node) :
  (forall b, In b post -> forall w, late_decoration_of b <> Some (f, w)) ->
  forall late : gmap string string,
    fold_left late_decoration_step post late !! f = late !! f.
Proof.
  induction post as [|b post IH]; intros Hpost late; [reflexivity |].
  simpl. rewrite IH by (intros b' Hb'; apply Hpost; right; exact Hb').
  rewrite late_decoration_step_spec.
  destruct (late_decoration_of b) as [[m w]|] eqn:E; [| reflexivity].
  apply lookup_insert_ne. intros ->. apply (Hpost b (or_introl eq_refl) w). exact E.
Qed.

(** The last late decoration of a name is the one recorded. *)
Lemma late_decorations_last (f w : string) (pre post : list node) (a : node) :
  late_decoration_of a = Some (f, w) ->
  (forall b, In b post -> forall w', late_decoration_of b <> Some (f, w')) ->
  late_decorations (pre ++ a :: post) !! f = Some w.
Proof.
  intros Ha Hpost. unfold late_decorations.
  rewrite fold_left_app. simpl.
  rewrite late_decorations_keep by exact Hpost.
  rewrite late_decoration_step_spec, Ha. apply lookup_insert_eq.
Qed.

Lemma late_decorations_none (f : string) (children : list node) :
  (forall b, In b children -> forall w, late_decoration_of b <> Some (f, w)) ->
  late_decorations children !! f = None.
Proof.
  intros H. unfold late_decorations. rewrite late_decorations_keep by exact H.
  apply lookup_empty.
Qed.

(** Every recorded wrapper is [classmethod] or [staticmethod]. *)
Lemma late_decorations_wrapper (children : list node) (f w : string) :
  late_decorations children !! f = Some w -> is_method_wrapper w = true.
Proof.
  unfold late_decorations.
  assert (G : forall late : gmap string string,
             (forall g v, late !! g = Some v -> is_method_wrapper v = true) ->
             forall g v, fold_left late_decoration_step children late !! g = Some v ->
                         is_method_wrapper v = true).
  { induction children as [|b children IH]; intros late Hl g v; simpl; [apply Hl |].
    apply IH. intros g' v'. rewrite late_decoration_step_spec.
    destruct b as [| | | |targets value ? ?| | | | | | |]; simpl; try apply Hl.
    destruct value as [| | | | |func cargs ? ? ? ? ?| | | | | |]; simpl; try apply Hl.
    destruct func as [| | | | | |func_name ? ? ?| | | | |]; simpl; try apply Hl.
    destruct cargs as [|a cargs]; simpl; [apply Hl |].
    destruct a; simpl; try apply Hl.
    destruct cargs; simpl; [| apply Hl].
    destruct (is_method_wrapper func_name) eqn:E; [| apply Hl].
    rewrite lookup_insert. case_decide; [| apply Hl].
    intros Hv. injection Hv as <-. exact E. }
  apply G. intros g v. rewrite lookup_empty. discriminate.
Qed.

Lemma decorator_names_wrapper (decorator_list : list node) (w : string) :
  In w (decorator_names decorator_list) -> is_method_wrapper w = true.
Proof.
  unfold decorator_names. intros H. apply in_flat_map in H.
  destruct H as (d & _ & H). destruct d; simpl in H; try tauto.
  destruct (is_method_wrapper id) eqn:E; simpl in H; [| tauto].
  destruct H as [<- | []]. exact E.
Qed.

Lemma tag_function_global_names late st o :
  global_names (tag_function late st o) = global_names st.
Proof.
  unfold tag_function. destruct (obj_node o); try reflexivity.
  destruct (late !! fname); [reflexivity |].
  destruct decorator_list; [reflexivity |].
  destruct (decorator_names _); reflexivity.
Qed.

Lemma tag_function_other late st o (q : path) :
  q <> obj_id o ->
  function_type (tag_function late st o) !! q = function_type st !! q.
Proof.
  intros Hq. unfold tag_function, set_function_type.
  destruct (obj_node o); try reflexivity.
  destruct (late !! fname); cbn [function_type].
  { rewrite !lookup_insert_ne by congruence. reflexivity. }
  destruct decorator_list; cbn [function_type].
  { rewrite lookup_insert_ne by congruence. reflexivity. }
  destruct (decorator_names _); cbn [function_type];
    rewrite !lookup_insert_ne by congruence; reflexivity.
Qed.

Lemma tag_function_at late st o :
  function_type (tag_function late st o) !! obj_id o =
    match tagged_role late (obj_node o) with
    | Some r => Some r
    | None => function_type st !! obj_id o
    end.
Proof.
  unfold tag_function, tagged_role, set_function_type.
  destruct (obj_node o); try reflexivity.
  destruct (late !! fname); cbn [function_type].
  { apply lookup_insert_eq. }
  destruct decorator_list as [|d ds].
  { apply lookup_insert_eq. }
  destruct (decorator_names (d :: ds)); cbn [function_type]; apply lookup_insert_eq.
Qed.

Lemma fold_tag_global_names late (objs : list obj) : forall st,
  global_names (fold_left (tag_function late) objs st) = global_names st.
Proof.
  induction objs as [|o objs IH]; intros st; simpl; [reflexivity |].
  rewrite IH. apply tag_function_global_names.
Qed.

Lemma In_objs_from (p : path) (l : list node) : forall k o,
  In o (objs_from p k l) ->
  exists i n, l !! i = Some n /\ o = mk_obj (p ++ [(k + i)%nat]) n.
Proof.
  induction l as [|c l IH]; intros k o; simpl; [tauto |].
  intros [<- | H].
  - exists O, c. split; [reflexivity |]. rewrite Nat.add_0_r. reflexivity.
  - destruct (IH _ _ H) as (i & n & Hi & ->).
    exists (S i), n. split; [exact Hi |]. f_equal. f_equal. f_equal. lia.
Qed.

Lemma fold_tag_other late (p : path) (l : list node) : forall k st (q : path),
  (forall i, (k <= i)%nat -> q <> p ++ [i]) ->
  function_type (fold_left (tag_function late) (objs_from p k l) st) !! q
  = function_type st !! q.
Proof.
  induction l as [|c l IH]; intros k st q Hq; simpl; [reflexivity |].
  rewrite IH by (intros i Hi; apply Hq; lia).
  apply tag_function_other. simpl. apply Hq. lia.
Qed.

Lemma fold_tag_at late (p : path) (l : list node) : forall k st i n,
  l !! i = Some n ->
  function_type (fold_left (tag_function late) (objs_from p k l) st)
    !! (p ++ [(k + i)%nat])
  = match tagged_role late n with
    | Some r => Some r
    | None => function_type st !! (p ++ [(k + i)%nat])
    end.
Proof.
  induction l as [|c l IH]; intros k st i n Hi; [discriminate |].
  destruct i as [|i]; simpl in Hi |- *.
  - injection Hi as ->. rewrite Nat.add_0_r.
    rewrite fold_tag_other.
    + apply (tag_function_at late st (mk_obj (p ++ [k]) n)).
    + intros j Hj E. apply app_inj_tail in E. lia.
  - replace (k + S i)%nat with (S k + i)%nat by lia.
    rewrite (IH (S k) _ i n Hi).
    destruct (tagged_role late n); [reflexivity |].
    apply tag_function_other. simpl. intros E. apply app_inj_tail in E. lia.
Qed.

(** What [tag_class_functions] leaves in the store: the kind of each
    child that is a function, at that child; nothing else changes. *)
Lemma tag_class_functions_child (cls : obj) (st : attrs) (i : nat) (n : node) :
  ast_iter_nodes (obj_node cls) !! i = Some n ->
  function_type (tag_class_functions cls st) !! (obj_id cls ++ [i])
  = match tagged_role (late_decorations (ast_iter_nodes (obj_node cls))) n with
    | Some r => Some r
    | None => function_type st !! (obj_id cls ++ [i])
    end.
Proof.
  intros Hi. unfold tag_class_functions, child_objs.
  apply (fold_tag_at _ (obj_id cls) _ O st i n Hi).
Qed.

Lemma tag_class_functions_other (cls : obj) (st : attrs) (q : path) :
  (forall i, q <> obj_id cls ++ [i]) ->
  function_type (tag_class_functions cls st) !! q = function_type st !! q.
Proof.
  intros Hq. unfold tag_class_functions, child_objs.
  apply fold_tag_other. intros i _. apply Hq.
Qed.

Lemma tag_class_functions_global_names (cls : obj) (st : attrs) :
  global_names (tag_class_functions cls st) = global_names st.
Proof. apply fold_tag_global_names. Qed.

(** C1, as amended: for a function [f] that is a child of a class,
    the last statement of the class that assigns [w(f)], [w] being
    [classmethod] or [staticmethod] and the targets of the assignment
    being whatever they are, gives [f] the kind [w], whatever the
    decorators of [f]; without such a statement the bare decorator
    [w] alone gives [f] the same kind [w]; and [f = w(f)] is such a
    statement. *)
Theorem late_decoration_determines_role
    (st : attrs) (p : path) (cname : string) (bases keywords : list node)
    (starargs kwargs : option node) (body decorator_list : list node)
    (lineno col_offset : Z)
    (i : nat) (f : string) (fargs : ast_arguments node)
    (fbody fdecorators : list node) (freturns : option node) (fl fc : Z) :
  let cls := ClassDef cname bases keywords starargs kwargs body decorator_list
               lineno col_offset in
  let fn := FunctionDef f fargs fbody fdecorators freturns fl fc in
  let role := getattr_function_type (tag_class_functions (mk_obj p cls) st)
                (mk_obj (p ++ [i]) fn) in
  ast_iter_nodes cls !! i = Some fn ->
  (forall pre a post w,
      ast_iter_nodes cls = pre ++ a :: post ->
      late_decoration_of a = Some (f, w) ->
      (forall b, In b post -> forall w', late_decoration_of b <> Some (f, w')) ->
      role = w)
  /\ (forall w ctx l c,
      (forall b, In b (ast_iter_nodes cls) ->
                 forall w', late_decoration_of b <> Some (f, w')) ->
      is_method_wrapper w = true ->
      fdecorators = [Name w ctx l c] ->
      role = w)
  /\ (forall targets w ctx1 l1 c1 ctx2 l2 c2 kws sa ka l3 c3 l4 c4,
      is_method_wrapper w = true ->
      late_decoration_of
        (Assign targets (Call (Name w ctx1 l1 c1) [Name f ctx2 l2 c2] kws sa ka l3 c3)
           l4 c4) = Some (f, w)).
Proof.
  intros cls fn role Hi.
  assert (Hrole : role =
            default "function"
              (tagged_role (late_decorations (ast_iter_nodes cls)) fn)).
  { unfold role, getattr_function_type. cbn [obj_id].
    pose proof (tag_class_functions_child (mk_obj p cls) st i fn Hi) as E.
    cbn [obj_id obj_node] in E. rewrite E. reflexivity. }
  split; [| split].
  - intros pre a post w Hsplit Ha Hpost. rewrite Hrole.
    unfold fn, tagged_role. rewrite Hsplit.
    rewrite (late_decorations_last f w pre post a Ha Hpost). reflexivity.
  - intros w ctx l c Hnone Hw ->. rewrite Hrole.
    unfold fn, tagged_role. rewrite (late_decorations_none f _ Hnone).
    simpl. rewrite Hw. reflexivity.
  - intros. simpl. rewrite H. reflexivity.
Qed.

Lemma late_decoration_determines_role_witness :
  getattr_function_type
    (tag_class_functions (mk_obj [0%nat] static_wrapped_class) no_attrs)
    (mk_obj ([0%nat] ++ [0%nat]) plain_f) = "staticmethod".
Proof.
  refine (proj1 (late_decoration_determines_role no_attrs [0%nat] "C" [] [] None None
                   [plain_f; late_wrap "staticmethod" "f" 4] [] 1 0
                   0%nat "f" (positional ["x"]) [pass_stmt 3 8] [] None 2 4 _)
            [plain_f] (late_wrap "staticmethod" "f" 4) [] "staticmethod" _ _ _).
  - reflexivity.
  - reflexivity.
  - reflexivity.
  - intros b [].
Defined.

(** C1 as stated fails: the class holds [f = staticmethod(f)], and
    [f] is tagged a classmethod, from the later [f = classmethod(f)]. *)
Lemma late_decoration_counterexample :
  ast_iter_nodes twice_wrapped_class !! 0%nat = Some plain_f
  /\ In (late_wrap "staticmethod" "f" 4) (ast_iter_nodes twice_wrapped_class)
  /\ getattr_function_type
       (tag_class_functions (mk_obj [0%nat] twice_wrapped_class) no_attrs)
       (mk_obj [0%nat; 0%nat] plain_f) = "classmethod"
  /\ getattr_function_type
       (tag_class_functions (mk_obj [0%nat] twice_wrapped_class) no_attrs)
       (mk_obj [0%nat; 0%nat] plain_f) <> "staticmethod".
Proof.
  split; [reflexivity |]. split; [simpl; tauto |].
  assert (E : getattr_function_type
       (tag_class_functions (mk_obj [0%nat] twice_wrapped_class) no_attrs)
       (mk_obj [0%nat; 0%nat] plain_f) = "classmethod") by (vm_compute; reflexivity).
  rewrite E. split; [reflexivity | discriminate].
Qed.

Lemma local_variable_flagged_witness :
  let f := mk_obj [0%nat] global_X_function in
  let st := find_global_defs f no_attrs in
  let parents := [mk_obj [] (module_of [global_X_function]); f] in
  ("Y" ∉ global_defs global_X_function ->
   VariablesInFunctionCheck.visit_assign st (mk_obj [0%nat; 3%nat] assign_Y) parents
   = Some [(4, 4, "E805 variable in function should be lowercase",
            "VariablesInFunctionCheck")])
  /\ ("Y" ∈ global_defs global_X_function ->
      VariablesInFunctionCheck.visit_assign st (mk_obj [0%nat; 3%nat] assign_Y) parents
      = Some [])
  /\ (global_defs global_X_function = global_defs global_X_function ->
      declared_global global_X_function "Y" ->
      VariablesInFunctionCheck.visit_assign st (mk_obj [0%nat; 3%nat] assign_Y) parents
      = Some []).
Proof.
  intros f st parents.
  apply (local_variable_flagged st [0%nat; 3%nat] parents f
           (global_defs global_X_function) "Y" Store (Other "Num" [] 4 8) 4 4 4 4).
  - reflexivity.
  - apply lookup_insert_eq.
  - discriminate.
  - reflexivity.
  - simpl. discriminate.
Defined.

(** The run on [global_X_function]: [X], declared global, passes, and
    [Y] is reported. *)
Example run_global_X_function :
  run BaseASTCheck_checks (Some (module_of [global_X_function]))
  = mk_outcome [(4, 4, "E805 variable in function should be lowercase",
                 "VariablesInFunctionCheck")] false.
Proof. vm_compute. reflexivity. Qed.

(** ** The traversal *)

(** *** The order of positions *)

Lemma path_lt_irrefl (p : path) : ~ path_lt p p.
Proof. induction p as [|i p IH]; simpl; [tauto | intros [H | [_ H]]; [lia | tauto]]. Qed.

Lemma path_lt_trans (p q r : path) : path_lt p q -> path_lt q r -> path_lt p r.
Proof.
  revert q r. induction p as [|i p IH]; intros [|j q] [|k r]; simpl; try tauto.
  intros [H1 | [-> H1]] [H2 | [-> H2]]; try (left; lia).
  right. split; [reflexivity | eapply IH; eassumption].
Qed.

Lemma path_lt_asym (p q : path) : path_lt p q -> ~ path_lt q p.
Proof. intros H1 H2. exact (path_lt_irrefl p (path_lt_trans _ _ _ H1 H2)). Qed.

Lemma path_lt_below (p r : path) : r <> [] -> path_lt p (p ++ r).
Proof.
  intros Hr. induction p as [|i p IH]; simpl.
  - destruct r; [congruence | exact I].
  - right. split; [reflexivity | exact IH].
Qed.

Lemma path_lt_siblings (c : path) (a b : nat) (r1 r2 : path) :
  (a < b)%nat -> path_lt (c ++ a :: r1) (c ++ b :: r2).
Proof.
  intros Hab. induction c as [|i c IH]; simpl; [left; exact Hab |].
  right. split; [reflexivity | exact IH].
Qed.

Lemma call_lt_irrefl (c : call) : ~ call_lt c c.
Proof. intros [H | [_ H]]; [exact (path_lt_irrefl _ H) | lia]. Qed.

Lemma call_lt_asym (c1 c2 : call) : call_lt c1 c2 -> ~ call_lt c2 c1.
Proof.
  intros [H1 | [E1 H1]] [H2 | [E2 H2]].
  - exact (path_lt_asym _ _ H1 H2).
  - rewrite E2 in H1. exact (path_lt_irrefl _ H1).
  - rewrite E1 in H2. exact (path_lt_irrefl _ H2).
  - lia.
Qed.

Lemma StronglySorted_app {A} (R : A -> A -> Prop) (l1 l2 : list A) :
  StronglySorted R l1 -> StronglySorted R l2 ->
  (forall a b, In a l1 -> In b l2 -> R a b) ->
  StronglySorted R (l1 ++ l2).
Proof.
  intros H1 H2 H12. induction l1 as [|a l1 IH]; simpl; [exact H2 |].
  inversion H1 as [|? ? Hs Hf]; subst. constructor.
  - apply IH; [exact Hs |]. intros a' b Ha' Hb. apply H12; [right; exact Ha' | exact Hb].
  - apply Forall_app. split; [exact Hf |].
    apply Forall_forall. intros b Hb%list_elem_of_In. apply H12; [left; reflexivity | exact Hb].
Qed.

(** In a strongly sorted list the related elements are in order. *)
Lemma StronglySorted_lookup {A} (R : A -> A -> Prop) (l : list A) :
  StronglySorted R l ->
  forall i j x y, l !! i = Some x -> l !! j = Some y -> (i < j)%nat -> R x y.
Proof.
  induction 1 as [|a l Hs IH Hf]; intros i j x y Hi Hj Hij; [discriminate |].
  destruct j as [|j]; [lia |]. destruct i as [|i]; simpl in Hi, Hj.
  - injection Hi as <-. rewrite Forall_forall in Hf. apply Hf.
    apply list_elem_of_lookup. exists j. exact Hj.
  - apply (IH i j); [exact Hi | exact Hj | lia].
Qed.

Lemma sorted_before {A} (R : A -> A -> Prop) (l : list A) :
  StronglySorted R l ->
  (forall x, ~ R x x) -> (forall x y, R x y -> ~ R y x) ->
  forall i j x y, l !! i = Some x -> l !! j = Some y -> R x y -> (i < j)%nat.
Proof.
  intros Hs Hirr Hasym i j x y Hi Hj Hxy.
  destruct (Nat.lt_trichotomy i j) as [H | [-> | H]]; [exact H | |].
  - rewrite Hi in Hj. injection Hj as <-. destruct (Hirr _ Hxy).
  - pose proof (StronglySorted_lookup R l Hs j i y x Hj Hi H) as Hyx.
    destruct (Hasym _ _ Hxy Hyx).
Qed.

(** *** The traversal unfolded *)

Section Traversal.

Variable visitors : list check.

Lemma visit_with_spec (method : string) (st : attrs) (node : obj) (parents : list obj) :
  forall vs i cs r,
    visit_with method st node parents i vs = (cs, r) ->
    StronglySorted (fun c1 c2 => (call_visitor c1 < call_visitor c2)%nat) cs
    /\ forall c, In c cs ->
         (i <= call_visitor c)%nat
         /\ call_attrs c = st /\ call_node c = node /\ call_parents c = parents
         /\ exists v h, vs !! (call_visitor c - i)%nat = Some v
                        /\ check_method v method = Some h
                        /\ call_result c = h st node parents.
Proof.
  induction vs as [|v vs IH]; intros i cs r; simpl.
  - intros H. injection H as <- <-. split; [constructor | intros c []].
  - destruct (check_method v method) as [h|] eqn:Eh.
    + destruct (h st node parents) as [errs|] eqn:Er.
      * destruct (visit_with method st node parents (S i) vs) as [cs' r'] eqn:E.
        intros H. injection H as <- <-.
        destruct (IH _ _ _ E) as [Hs Hc]. split.
        -- constructor; [exact Hs |]. apply Forall_forall.
           intros c Hin%list_elem_of_In. destruct (Hc c Hin) as [Hle _]. simpl. lia.
        -- intros c [<- | Hin]; simpl.
           ++ repeat split; try lia. exists v, h.
              rewrite Nat.sub_diag. simpl. auto.
           ++ destruct (Hc c Hin) as (Hle & Ha & Hn & Hp & v' & h' & Hv & Hm & Hr).
              repeat split; try assumption; try lia.
              exists v', h'. repeat split; try assumption.
              replace (call_visitor c - i)%nat with (S (call_visitor c - S i))%nat by lia.
              exact Hv.
      * intros H. injection H as <- <-. split.
        -- constructor; constructor.
        -- intros c [<- | []]; simpl. repeat split; try lia.
           exists v, h. rewrite Nat.sub_diag. simpl. auto.
    + intros H. destruct (IH _ _ _ H) as [Hs Hc]. split; [exact Hs |].
      intros c Hin. destruct (Hc c Hin) as (Hle & Ha & Hn & Hp & v' & h' & Hv & Hm & Hr).
      repeat split; try assumption; try lia.
      exists v', h'. repeat split; try assumption.
      replace (call_visitor c - i)%nat with (S (call_visitor c - S i))%nat by lia.
      exact Hv.
Qed.

(** Unless a method raises, every visitor that has the method is
    invoked. *)
Lemma visit_with_complete (method : string) (st : attrs) (node : obj)
    (parents : list obj) :
  forall vs i cs,
    visit_with method st node parents i vs = (cs, false) ->
    forall j v h,
      vs !! j = Some v -> check_method v method = Some h ->
      exists c, In c cs /\ call_visitor c = (i + j)%nat.
Proof.
  induction vs as [|v0 vs IH]; intros i cs; simpl; [intros _ j v h H; discriminate |].
  destruct (check_method v0 method) as [h0|] eqn:Eh.
  - destruct (h0 st node parents) as [errs|] eqn:Er; [| discriminate].
    destruct (visit_with method st node parents (S i) vs) as [cs' r'] eqn:E.
    intros H. injection H as <- ->.
    intros [|j] v h Hv Hm; simpl in Hv.
    + eexists. split; [left; reflexivity |]. simpl. lia.
    + destruct (IH _ _ E j v h Hv Hm) as (c & Hc & Hi).
      exists c. split; [right; exact Hc | lia].
  - intros H [|j] v h Hv Hm; simpl in Hv.
    + injection Hv as <-. congruence.
    + destruct (IH _ _ H j v h Hv Hm) as (c & Hc & Hi).
      exists c. split; [exact Hc | lia].
Qed.

Lemma run_children_ext (f g : obj -> trav -> trav) (cs : list obj) :
  (forall c, In c cs -> forall t, f c t = g c t) ->
  forall t, run_children f cs t = run_children g cs t.
Proof.
  induction cs as [|c cs IH]; intros H t; simpl; [reflexivity |].
  rewrite (H c (or_introl eq_refl)).
  destruct (raised (g c t)); [reflexivity |].
  apply IH. intros c' Hc'. apply H. right. exact Hc'.
Qed.

Lemma child_objs_In (o c : obj) :
  In c (child_objs o) ->
  exists i, ast_iter_nodes (obj_node o) !! i = Some (obj_node c)
            /\ obj_id c = obj_id o ++ [i].
Proof.
  intros H. destruct (In_objs_from _ _ _ _ H) as (i & n & Hi & ->).
  exists i. split; [exact Hi | reflexivity].
Qed.

Lemma lookup_In {A} (l : list A) (i : nat) (x : A) : l !! i = Some x -> In x l.
Proof. intros H. apply list_elem_of_In, list_elem_of_lookup. exists i. exact H. Qed.

Lemma _run_bounded_enough (n : node) :
  forall (p : path) (t : trav) (bound : nat),
    (node_size n <= bound)%nat ->
    _run_bounded visitors bound (mk_obj p n) t = _run visitors (mk_obj p n) t.
Proof.
  induction n as [n IH] using node_children_ind.
  intros p t bound Hb. unfold _run. cbn [obj_node].
  pose proof (node_size_children n) as Hsize.
  destruct bound as [|bound]; [lia |].
  rewrite Hsize. simpl.
  destruct (raised (visit_node visitors (mk_obj p n) t)); [reflexivity |].
  assert (E : forall t',
    run_children (_run_bounded visitors bound) (child_objs (mk_obj p n)) t'
    = run_children (_run_bounded visitors (sum_sizes node_size (ast_iter_nodes n)))
        (child_objs (mk_obj p n)) t').
  { apply run_children_ext. intros c Hc t'.
    destruct (child_objs_In _ _ Hc) as (i & Hi & Hid). cbn [obj_node obj_id] in Hi.
    apply lookup_In in Hi.
    pose proof (sum_sizes_In node_size _ _ Hi) as Hle.
    destruct c as [pc nc]. cbn [obj_node] in *.
    rewrite (IH nc Hi pc t' bound) by lia.
    rewrite (IH nc Hi pc t' (sum_sizes node_size (ast_iter_nodes n))) by lia.
    reflexivity. }
  rewrite E. reflexivity.
Qed.

(** [_run] visits the node, then runs on the children in order with
    the node pushed on the parents, and pops it; a visit method that
    raises ends it. *)
Lemma _run_unfold (o : obj) (t : trav) :
  _run visitors o t =
    let t1 := visit_node visitors o t in
    if raised t1 then t1
    else
      let t2 := mk_trav (calls t1) (node_attrs t1) (parents_deque t1 ++ [o]) false in
      let t3 := run_children (_run visitors) (child_objs o) t2 in
      if raised t3 then t3
      else mk_trav (calls t3) (node_attrs t3) (removelast (parents_deque t3)) false.
Proof.
  destruct o as [p n]. unfold _run at 1. cbn [obj_node].
  rewrite (node_size_children n). simpl.
  destruct (raised (visit_node visitors (mk_obj p n) t)); [reflexivity |].
  assert (E : forall t',
    run_children (_run_bounded visitors (sum_sizes node_size (ast_iter_nodes n)))
      (child_objs (mk_obj p n)) t'
    = run_children (_run visitors) (child_objs (mk_obj p n)) t').
  { apply run_children_ext. intros c Hc t'.
    destruct (child_objs_In _ _ Hc) as (i & Hi & Hid). cbn [obj_node obj_id] in Hi.
    apply lookup_In in Hi.
    pose proof (sum_sizes_In node_size _ _ Hi) as Hle.
    destruct c as [pc nc]. cbn [obj_node] in *.
    apply _run_bounded_enough. exact Hle. }
  rewrite E. reflexivity.
Qed.

End Traversal.

(** *** Positions *)

Lemma prefix_of_extension (q p : path) (i : nat) (r : path) :
  q `prefix_of` (p ++ i :: r) ->
  q `prefix_of` p \/ exists r', q = p ++ i :: r'.
Proof.
  revert q. induction p as [|a p IH]; intros q [s Hs]; simpl in Hs.
  - destruct q as [|b q]; [left; apply prefix_nil |].
    right. simpl in Hs. injection Hs as <- _. exists q. reflexivity.
  - destruct q as [|b q]; [left; apply prefix_nil |].
    simpl in Hs. injection Hs as <- Hs.
    destruct (IH q (ex_intro _ s Hs)) as [[s' ->] | [r' ->]].
    + left. exists s'. reflexivity.
    + right. exists r'. reflexivity.
Qed.

Lemma prefix_not_extension (q p : path) (i : nat) (r : path) :
  q `prefix_of` p -> q <> p ++ i :: r.
Proof.
  intros [s ->] E. apply (f_equal length) in E.
  rewrite !length_app in E. simpl in E. lia.
Qed.

Lemma extension_inj (p : path) (i j : nat) (r r' : path) :
  p ++ i :: r = p ++ j :: r' -> i = j /\ r = r'.
Proof. intros E. apply app_inv_head in E. injection E as -> ->. tauto. Qed.

Lemma prefix_not_below_from (q p : path) (k : nat) :
  q `prefix_of` p -> ~ below_from p k q.
Proof. intros Hq (i & r & _ & E). exact (prefix_not_extension _ _ _ _ Hq E). Qed.

Lemma prefix_not_strictly_below_from (q p : path) (k : nat) :
  q `prefix_of` p -> ~ strictly_below_from p k q.
Proof. intros Hq (i & r & _ & _ & E). exact (prefix_not_extension _ _ _ _ Hq E). Qed.

Lemma prefix_not_strictly_below (q p : path) :
  q `prefix_of` p -> ~ strictly_below (p) q \/ q = p.
Proof.
  intros [s ->]. left. intros (r & Hr & E).
  apply (f_equal length) in E. rewrite !length_app in E.
  destruct r; [congruence | simpl in E; lia].
Qed.

(** *** The kinds in the store *)

Lemma roles_ok_no_attrs : roles_ok no_attrs.
Proof. intros q v. simpl. rewrite lookup_empty. discriminate. Qed.

Lemma roles_ok_set (o : obj) (ft : string) (st : attrs) :
  ft = "method" \/ is_method_wrapper ft = true ->
  roles_ok st -> roles_ok (set_function_type o ft st).
Proof.
  intros Hft Hst q v. unfold set_function_type. cbn [function_type].
  rewrite lookup_insert. case_decide; [| apply Hst].
  intros E. injection E as <-. exact Hft.
Qed.

Lemma tag_function_roles_ok (late : gmap string string) (st : attrs) (o : obj) :
  (forall f w, late !! f = Some w -> is_method_wrapper w = true) ->
  roles_ok st -> roles_ok (tag_function late st o).
Proof.
  intros Hlate Hst. unfold tag_function.
  destruct (obj_node o); try exact Hst.
  destruct (late !! fname) as [ft|] eqn:E.
  { apply roles_ok_set; [right; exact (Hlate _ _ E) |].
    apply roles_ok_set; [left; reflexivity | exact Hst]. }
  destruct decorator_list as [|d ds].
  { apply roles_ok_set; [left; reflexivity | exact Hst]. }
  destruct (decorator_names (d :: ds)) as [|first rest] eqn:En.
  { apply roles_ok_set; [left; reflexivity | exact Hst]. }
  apply roles_ok_set.
  - right. apply (decorator_names_wrapper (d :: ds)). rewrite En. left. reflexivity.
  - apply roles_ok_set; [left; reflexivity | exact Hst].
Qed.

Lemma tag_class_functions_roles_ok (cls : obj) (st : attrs) :
  roles_ok st -> roles_ok (tag_class_functions cls st).
Proof.
  unfold tag_class_functions.
  generalize (child_objs cls). intros objs. revert st.
  induction objs as [|o objs IH]; intros st Hst; simpl; [exact Hst |].
  apply IH. apply tag_function_roles_ok; [| exact Hst].
  intros f w. apply late_decorations_wrapper.
Qed.

(** *** One node *)

Section TraversalFacts.

Variable visitors : list check.

Lemma visit_node_attrs (o : obj) (t : trav) :
  node_attrs (visit_node visitors o t) =
    match obj_node o with
    | ClassDef _ _ _ _ _ _ _ _ _ => tag_class_functions o (node_attrs t)
    | FunctionDef _ _ _ _ _ _ _ => find_global_defs o (node_attrs t)
    | _ => node_attrs t
    end.
Proof.
  unfold visit_node.
  destruct (visit_with _ _ _ _ _ _) as [cs r]. reflexivity.
Qed.

Lemma visit_node_parents (o : obj) (t : trav) :
  parents_deque (visit_node visitors o t) = parents_deque t.
Proof.
  unfold visit_node.
  destruct (visit_with _ _ _ _ _ _) as [cs r]. reflexivity.
Qed.

Lemma visit_node_global_names_other (o : obj) (t : trav) (q : path) :
  q <> obj_id o ->
  global_names (node_attrs (visit_node visitors o t)) !! q
  = global_names (node_attrs t) !! q.
Proof.
  intros Hq. rewrite visit_node_attrs.
  destruct (obj_node o); try reflexivity.
  - rewrite tag_class_functions_global_names. reflexivity.
  - unfold find_global_defs, set_global_names. cbn [global_names].
    apply lookup_insert_ne. congruence.
Qed.

Lemma visit_node_function_type_other (o : obj) (t : trav) (q : path) :
  ~ strictly_below (obj_id o) q ->
  function_type (node_attrs (visit_node visitors o t)) !! q
  = function_type (node_attrs t) !! q.
Proof.
  intros Hq. rewrite visit_node_attrs.
  destruct (obj_node o); try reflexivity.
  apply tag_class_functions_other. intros i ->. apply Hq.
  exists [i]. split; [discriminate | reflexivity].
Qed.

Lemma visit_node_global_names_self (o : obj) (t : trav) :
  is_functiondef (obj_node o) = true ->
  global_names (node_attrs (visit_node visitors o t)) !! obj_id o
  = Some (global_defs (obj_node o)).
Proof.
  intros Hf. rewrite visit_node_attrs.
  destruct (obj_node o) eqn:E; try discriminate.
  unfold find_global_defs, set_global_names. cbn [global_names].
  rewrite E. apply lookup_insert_eq.
Qed.

Lemma visit_node_roles_ok (o : obj) (t : trav) :
  roles_ok (node_attrs t) -> roles_ok (node_attrs (visit_node visitors o t)).
Proof.
  intros H. rewrite visit_node_attrs.
  destruct (obj_node o); try exact H.
  apply tag_class_functions_roles_ok. exact H.
Qed.

(** The invocations of [visit_node]: on the node itself, with the
    parents and the attributes at hand, by the visitors in order. *)
Lemma visit_node_calls (o : obj) (t : trav) :
  exists cs,
    calls (visit_node visitors o t) = calls t ++ cs
    /\ StronglySorted call_lt cs
    /\ forall c, In c cs ->
         call_node c = o
         /\ call_parents c = parents_deque t
         /\ call_attrs c = node_attrs (visit_node visitors o t)
         /\ call_ok visitors (parents_deque t) o c.
Proof.
  pose proof (visit_node_attrs o t) as Hattrs.
  unfold visit_node in *.
  destruct (visit_with _ _ _ _ _ _) as [cs r] eqn:E. cbn [node_attrs calls] in *.
  exists cs. split; [reflexivity |].
  destruct (visit_with_spec _ _ _ _ _ _ _ _ E) as [Hs Hc].
  split.
  - clear E. induction Hs as [|c cs Hs IH Hf]; constructor.
    + apply IH. intros c' Hc'. apply Hc. right. exact Hc'.
    + rewrite Forall_forall in Hf |- *. intros c' Hc'.
      right. split; [| apply Hf; exact Hc'].
      destruct (Hc c (or_introl eq_refl)) as (_ & _ & -> & _).
      apply list_elem_of_In in Hc'.
      destruct (Hc c' (or_intror Hc')) as (_ & _ & -> & _). reflexivity.
  - intros c Hin.
    destruct (Hc c Hin) as (_ & Ha & Hn & Hp & v & h & Hv & Hm & Hr).
    split; [exact Hn |]. split; [exact Hp |]. split; [exact Ha |].
    split.
    + exists []. rewrite Hn, Hp, !app_nil_r. repeat split; reflexivity.
    + exists v, h. rewrite Nat.sub_0_r in Hv.
      rewrite Hr, Ha, Hn, Hp. repeat split; assumption.
Qed.

Lemma visit_node_complete (o : obj) (t : trav) :
  raised (visit_node visitors o t) = false ->
  forall i v h,
    visitors !! i = Some v ->
    check_method v (visit_method (obj_node o)) = Some h ->
    exists c cs,
      calls (visit_node visitors o t) = calls t ++ cs
      /\ In c cs /\ call_visitor c = i.
Proof.
  unfold visit_node.
  destruct (visit_with _ _ _ _ _ _) as [cs r] eqn:E. cbn [raised calls].
  intros -> i v h Hv Hm.
  destruct (visit_with_complete _ _ _ _ _ _ _ E i v h Hv Hm) as (c & Hc & Hi).
  exists c, cs. split; [reflexivity |]. split; [exact Hc | exact Hi].
Qed.

End TraversalFacts.

(** *** The children, and the whole tree *)

Section TraversalInduction.

Variable visitors : list check.

Lemma below_child (p : path) (k : nat) (q : path) :
  below (p ++ [k]) q -> below_from p k q.
Proof.
  intros [r ->]. exists k, r. split; [lia |]. rewrite <- app_assoc. reflexivity.
Qed.

Lemma strictly_below_child (p : path) (k : nat) (q : path) :
  strictly_below (p ++ [k]) q -> strictly_below_from p k q.
Proof.
  intros (r & Hr & ->). exists k, r. split; [lia |]. split; [exact Hr |].
  rewrite <- app_assoc. reflexivity.
Qed.

Lemma below_from_S (p : path) (k : nat) (q : path) :
  below_from p (S k) q -> below_from p k q.
Proof. intros (i & r & Hi & ->). exists i, r. split; [lia | reflexivity]. Qed.

Lemma strictly_below_from_S (p : path) (k : nat) (q : path) :
  strictly_below_from p (S k) q -> strictly_below_from p k q.
Proof.
  intros (i & r & Hi & Hr & ->). exists i, r. split; [lia |]. split; [exact Hr | reflexivity].
Qed.

Lemma call_ok_child (base : list obj) (o : obj) (k : nat) (nd : node) (c : call) :
  ast_iter_nodes (obj_node o) !! k = Some nd ->
  call_ok visitors (base ++ [o]) (mk_obj (obj_id o ++ [k]) nd) c ->
  call_ok visitors base o c.
Proof.
  intros Hk [(r & Hid & Hat & Hpar) Hv]. split; [| exact Hv].
  exists (k :: r). cbn [obj_id obj_node] in *. split; [| split].
  - rewrite Hid, <- app_assoc. reflexivity.
  - simpl. rewrite Hk. exact Hat.
  - simpl. rewrite Hk, Hpar, <- app_assoc. destruct o. reflexivity.
Qed.

(** A prefix of a position under the child [k] is not a position under
    a later child. *)
Lemma prefix_under_child (q p : path) (k : nat) (x : path) :
  below (p ++ [k]) x -> q `prefix_of` x ->
  ~ below_from p (S k) q /\ ~ strictly_below_from p (S k) q.
Proof.
  intros [r ->] Hq. rewrite <- app_assoc in Hq. simpl in Hq.
  destruct (prefix_of_extension _ _ _ _ Hq) as [Hp | [r' ->]].
  - split; [apply prefix_not_below_from | apply prefix_not_strictly_below_from]; exact Hp.
  - split.
    + intros (i & s & Hi & E). apply extension_inj in E. lia.
    + intros (i & s & Hi & _ & E). apply extension_inj in E. lia.
Qed.

Lemma run_children_facts (base : list obj) (o : obj) (l : list node) :
  (forall c, In c l -> forall p t,
      parents_ok p (parents_deque t) (node_attrs t) ->
      roles_ok (node_attrs t) ->
      exists new,
        trav_facts visitors (parents_deque t) (mk_obj p c)
          (below p) (strictly_below p) t
          (_run visitors (mk_obj p c) t) new) ->
  forall k t,
    (forall i, l !! i = ast_iter_nodes (obj_node o) !! (k + i)%nat) ->
    parents_deque t = base ++ [o] ->
    parents_above (obj_id o) (parents_deque t) (node_attrs t) ->
    roles_ok (node_attrs t) ->
    exists new,
      trav_facts visitors base o
        (below_from (obj_id o) k) (strictly_below_from (obj_id o) k) t
        (run_children (_run visitors) (objs_from (obj_id o) k l) t) new.
Proof.
  intros IHnode. induction l as [|nd l IHl]; intros k t Hl Hbase Hpar Hroles.
  - exists []. simpl. constructor.
    + rewrite app_nil_r. reflexivity.
    + constructor.
    + intros c [].
    + reflexivity.
    + reflexivity.
    + reflexivity.
    + intros c [].
    + intros c [].
    + assumption.
    + intros c [].
    + intros _ r n i v h (i0 & r0 & Hi0 & E) Hat _ _.
      apply app_inv_head in E. subst r. simpl in Hat.
      specialize (Hl (i0 - k)%nat). replace (k + (i0 - k))%nat with i0 in Hl by lia.
      rewrite <- Hl in Hat. discriminate.
  - simpl.
    assert (Hk : ast_iter_nodes (obj_node o) !! k = Some nd).
    { rewrite <- (Nat.add_0_r k), <- Hl. reflexivity. }
    set (p := obj_id o) in *.
    assert (Hpre : parents_ok (p ++ [k]) (parents_deque t) (node_attrs t)).
    { intros o' Ho'. destruct (Hpar o' Ho') as [[s Hs] Hg]. split; [| exact Hg].
      exists (s ++ [k]). split; [destruct s; discriminate |].
      rewrite Hs, <- app_assoc. reflexivity. }
    destruct (IHnode nd (or_introl eq_refl) (p ++ [k]) t Hpre Hroles) as [new_a Fa].
    set (t_a := _run visitors (mk_obj (p ++ [k]) nd) t) in *.
    destruct (raised t_a) eqn:Eraised.
    + exists new_a. destruct Fa. constructor.
      * assumption.
      * assumption.
      * intros c Hc. destruct (tf_call_ok0 c Hc) as [Hw Hok]. split.
        -- apply below_child. exact Hw.
        -- apply (call_ok_child base o k nd c Hk). rewrite <- Hbase. exact Hok.
      * intros Hr. fold t_a in Hr. congruence.
      * intros q Hq. apply tf_frame_global_names0. intros H. apply Hq, below_child, H.
      * intros q Hq. apply tf_frame_function_type0. intros H.
        apply Hq, strictly_below_child, H.
      * assumption.
      * assumption.
      * assumption.
      * assumption.
      * intros Hr. fold t_a in Hr. congruence.
    + assert (Hl' : forall i, l !! i = ast_iter_nodes (obj_node o) !! (S k + i)%nat).
      { intros i. replace (S k + i)%nat with (k + S i)%nat by lia.
        rewrite <- Hl. reflexivity. }
      assert (Hpar' : parents_above p (parents_deque t_a) (node_attrs t_a)).
      { rewrite (tf_parents _ _ _ _ _ _ _ _ Fa Eraised).
        intros o' Ho'. destruct (Hpar o' Ho') as [Hp Hg]. split; [exact Hp |].
        intros Hf. rewrite (tf_frame_global_names _ _ _ _ _ _ _ _ Fa); [exact (Hg Hf) |].
        intros [s Hs]. rewrite <- app_assoc in Hs.
        exact (prefix_not_extension _ _ _ _ Hp Hs). }
      assert (Hbase' : parents_deque t_a = base ++ [o]).
      { rewrite (tf_parents _ _ _ _ _ _ _ _ Fa Eraised). exact Hbase. }
      destruct (IHl (fun c Hc => IHnode c (or_intror Hc)) (S k) t_a Hl' Hbase' Hpar'
                  (tf_roles _ _ _ _ _ _ _ _ Fa)) as [new_b Fb].
      exists (new_a ++ new_b). destruct Fa, Fb. constructor.
      * rewrite tf_calls1, tf_calls0, app_assoc. reflexivity.
      * apply StronglySorted_app; [assumption | assumption |].
        intros a b Ha Hb. left.
        destruct (tf_call_ok0 a Ha) as [[ra Hra] _].
        destruct (tf_call_ok1 b Hb) as [(i & rb & Hi & Hrb) _].
        rewrite Hra, Hrb, <- app_assoc. simpl.
        apply path_lt_siblings. lia.
      * intros c Hc. apply in_app_or in Hc. destruct Hc as [Hc | Hc].
        -- destruct (tf_call_ok0 c Hc) as [Hw Hok]. split.
           ++ apply below_child. exact Hw.
           ++ apply (call_ok_child base o k nd c Hk). rewrite <- Hbase. exact Hok.
        -- destruct (tf_call_ok1 c Hc) as [Hw Hok]. split; [| exact Hok].
           apply below_from_S. exact Hw.
      * intros Hr. rewrite (tf_parents1 Hr). apply tf_parents0. exact Eraised.
      * intros q Hq. rewrite tf_frame_global_names1, tf_frame_global_names0.
        -- reflexivity.
        -- intros H. apply Hq, below_child, H.
        -- intros H. apply Hq, below_from_S, H.
      * intros q Hq. rewrite tf_frame_function_type1, tf_frame_function_type0.
        -- reflexivity.
        -- intros H. apply Hq, strictly_below_child, H.
        -- intros H. apply Hq, strictly_below_from_S, H.
      * intros c Hc q Hq. apply in_app_or in Hc. destruct Hc as [Hc | Hc].
        -- destruct (tf_call_ok0 c Hc) as [Hw _].
           destruct (prefix_under_child q p k _ Hw Hq) as [Hn1 Hn2].
           destruct (tf_stable0 c Hc q Hq) as [E1 E2].
           rewrite E1, E2, tf_frame_global_names1, tf_frame_function_type1
             by assumption.
           split; reflexivity.
        -- apply tf_stable1; assumption.
      * intros c Hc. apply in_app_or in Hc. destruct Hc as [Hc | Hc];
          [apply tf_assigned0 | apply tf_assigned1]; exact Hc.
      * assumption.
      * intros c Hc. apply in_app_or in Hc. destruct Hc as [Hc | Hc];
          [apply tf_call_roles0 | apply tf_call_roles1]; exact Hc.
      * intros Hr r n i v h (i0 & r0 & Hi0 & E) Hat Hv Hm.
        apply app_inv_head in E. subst r.
        destruct (Nat.eq_dec i0 k) as [-> | Hne].
        -- simpl in Hat. fold p in Hk. rewrite Hk in Hat.
           destruct (tf_complete0 Eraised r0 n i v h) as (c & Hc & Hid & Hi);
             try assumption.
           { exists r0. reflexivity. }
           exists c. split; [apply in_or_app; left; exact Hc |].
           split; [| exact Hi]. rewrite Hid. cbn [obj_id].
           rewrite <- app_assoc. reflexivity.
        -- destruct (tf_complete1 Hr (i0 :: r0) n i v h) as (c & Hc & Hid & Hi);
             try assumption.
           { exists i0, r0. split; [lia | reflexivity]. }
           exists c. split; [apply in_or_app; right; exact Hc |].
           split; [exact Hid | exact Hi].
Qed.

Lemma _run_facts (n : node) :
  forall p t,
    parents_ok p (parents_deque t) (node_attrs t) ->
    roles_ok (node_attrs t) ->
    exists new,
      trav_facts visitors (parents_deque t) (mk_obj p n)
        (below p) (strictly_below p) t
        (_run visitors (mk_obj p n) t) new.
Proof.
  induction n as [n IH] using node_children_ind. intros p t Hpar Hroles.
  rewrite _run_unfold. cbv zeta.
  set (o := mk_obj p n).
  destruct (visit_node_calls visitors o t) as (cs & Hcalls & Hsorted & Hcs).
  pose proof (visit_node_parents visitors o t) as Hparents1.
  pose proof (visit_node_global_names_other visitors o t) as Hgn1.
  pose proof (visit_node_function_type_other visitors o t) as Hft1.
  pose proof (visit_node_global_names_self visitors o t) as Hself1.
  pose proof (visit_node_roles_ok visitors o t Hroles) as Hroles1.
  set (t1 := visit_node visitors o t) in *.
  cbn [obj_id obj_node] in Hgn1, Hft1, Hself1.
  (* the invocations on the node itself *)
  assert (Hcs_assigned : forall c, In c cs ->
            forall o', In o' (call_node c :: call_parents c) ->
              obj_id o' `prefix_of` obj_id (call_node c)
              /\ (is_functiondef (obj_node o') = true ->
                  global_names (call_attrs c) !! obj_id o'
                  = Some (global_defs (obj_node o')))).
  { intros c Hc o'. destruct (Hcs c Hc) as (-> & -> & -> & _).
    intros [<- | Ho'].
    - split; [reflexivity | exact Hself1].
    - destruct (Hpar o' Ho') as [(r & Hr & E) Hg]. cbn [obj_id]. split.
      + exists r. exact E.
      + intros Hf. rewrite Hgn1; [exact (Hg Hf) |].
        intros E'. rewrite E' in E. rewrite <- (app_nil_r p) in E at 1.
        apply app_inv_head in E. congruence. }
  destruct (raised t1) eqn:E1.
  - exists cs. constructor.
    + exact Hcalls.
    + exact Hsorted.
    + intros c Hc. destruct (Hcs c Hc) as (-> & _ & _ & Hok).
      split; [reflexivity | exact Hok].
    + intros Hr. exact Hparents1.
    + intros q Hq. apply Hgn1. intros ->. apply Hq. reflexivity.
    + exact Hft1.
    + intros c Hc q _. destruct (Hcs c Hc) as (_ & _ & -> & _). split; reflexivity.
    + exact Hcs_assigned.
    + exact Hroles1.
    + intros c Hc. destruct (Hcs c Hc) as (_ & _ & -> & _). exact Hroles1.
    + intros Hr. congruence.
  - set (t2 := mk_trav (calls t1) (node_attrs t1) (parents_deque t1 ++ [o]) false).
    assert (Hpar2 : parents_above (obj_id o) (parents_deque t2) (node_attrs t2)).
    { intros o' Ho'. cbn [parents_deque node_attrs t2 obj_id o] in *.
      rewrite Hparents1 in Ho'. apply in_app_or in Ho'.
      destruct Ho' as [Ho' | [<- | []]].
      - destruct (Hpar o' Ho') as [(r & Hr & E) Hg]. split; [exists r; exact E |].
        intros Hf. rewrite Hgn1; [exact (Hg Hf) |].
        intros E'. rewrite E' in E. rewrite <- (app_nil_r p) in E at 1.
        apply app_inv_head in E. congruence.
      - split; [reflexivity | exact Hself1]. }
    assert (IH' : forall c, In c (ast_iter_nodes n) -> forall p' t',
               parents_ok p' (parents_deque t') (node_attrs t') ->
               roles_ok (node_attrs t') ->
               exists new,
                 trav_facts visitors (parents_deque t') (mk_obj p' c)
                   (below p') (strictly_below p') t'
                   (_run visitors (mk_obj p' c) t') new).
    { intros c Hc. apply IH. exact Hc. }
    assert (Hbase2 : parents_deque t2 = parents_deque t ++ [o]).
    { cbn [parents_deque t2]. rewrite Hparents1. reflexivity. }
    destruct (run_children_facts (parents_deque t) o (ast_iter_nodes n) IH' O t2
                (fun i => eq_refl) Hbase2 Hpar2 Hroles1) as [new_b Fb].
    change (objs_from (obj_id o) 0 (ast_iter_nodes n)) with (child_objs o) in Fb.
    set (t3 := run_children (_run visitors) (child_objs o) t2) in *.
    assert (G : forall t',
               calls t' = calls t3 -> node_attrs t' = node_attrs t3 ->
               (raised t' = false -> parents_deque t' = parents_deque t) ->
               (raised t' = false -> raised t3 = false) ->
               trav_facts visitors (parents_deque t) o
                 (below p) (strictly_below p) t t' (cs ++ new_b)).
    { intros t' Ecalls Eattrs Epar Eraised. destruct Fb. cbn [calls node_attrs t2] in *.
      constructor.
      - rewrite Ecalls, tf_calls0, Hcalls, app_assoc. reflexivity.
      - apply StronglySorted_app; [exact Hsorted | exact tf_sorted0 |].
        intros a b Ha Hb. left.
        destruct (Hcs a Ha) as (-> & _).
        destruct (tf_call_ok0 b Hb) as [(i & r & _ & ->) _].
        cbn [obj_id o]. apply path_lt_below. discriminate.
      - intros c Hc. apply in_app_or in Hc. destruct Hc as [Hc | Hc].
        + destruct (Hcs c Hc) as (-> & _ & _ & Hok). split; [reflexivity | exact Hok].
        + destruct (tf_call_ok0 c Hc) as [(i & r & _ & ->) Hok].
          split; [| exact Hok]. exists (i :: r). reflexivity.
      - exact Epar.
      - intros q Hq. rewrite Eattrs, tf_frame_global_names0.
        + apply Hgn1. intros ->. apply Hq. reflexivity.
        + intros (i & r & _ & ->). apply Hq. exists (i :: r). reflexivity.
      - intros q Hq. rewrite Eattrs, tf_frame_function_type0.
        + apply Hft1. exact Hq.
        + intros (i & r & _ & _ & ->). apply Hq. exists (i :: r).
          split; [discriminate | reflexivity].
      - intros c Hc q Hq. rewrite Eattrs. apply in_app_or in Hc.
        destruct Hc as [Hc | Hc]; [| apply tf_stable0; assumption].
        destruct (Hcs c Hc) as (En & _ & -> & _). rewrite En in Hq. cbn [obj_id o] in Hq.
        rewrite tf_frame_global_names0, tf_frame_function_type0.
        + split; reflexivity.
        + apply prefix_not_strictly_below_from. exact Hq.
        + apply prefix_not_below_from. exact Hq.
      - intros c Hc. apply in_app_or in Hc.
        destruct Hc as [Hc | Hc]; [apply Hcs_assigned | apply tf_assigned0]; exact Hc.
      - rewrite Eattrs. exact tf_roles0.
      - intros c Hc. apply in_app_or in Hc.
        destruct Hc as [Hc | Hc]; [| apply tf_call_roles0; exact Hc].
        destruct (Hcs c Hc) as (_ & _ & -> & _). exact Hroles1.
      - intros Hr r n' i v h _ Hat Hv Hm. destruct r as [|i0 r0].
        + simpl in Hat. injection Hat as <-.
          destruct (visit_node_complete visitors o t E1 i v h Hv Hm)
            as (c & cs' & Hcalls' & Hc & Hi).
          fold t1 in Hcalls'. rewrite Hcalls in Hcalls'.
          apply app_inv_head in Hcalls'. subst cs'.
          exists c. split; [apply in_or_app; left; exact Hc |].
          split; [| exact Hi].
          destruct (Hcs c Hc) as (-> & _). cbn [obj_id o]. rewrite app_nil_r. reflexivity.
        + destruct (tf_complete0 (Eraised Hr) (i0 :: r0) n' i v h)
            as (c & Hc & Hid & Hi); try assumption.
          { exists i0, r0. split; [lia | reflexivity]. }
          exists c. split; [apply in_or_app; right; exact Hc |].
          split; [exact Hid | exact Hi]. }
    exists (cs ++ new_b).
    destruct (raised t3) eqn:E3.
    + apply G; [reflexivity | reflexivity | |]; intros Hr; congruence.
    + apply G; [reflexivity | reflexivity | | reflexivity].
      intros _. cbn [parents_deque].
      rewrite (tf_parents _ _ _ _ _ _ _ _ Fb E3). cbn [parents_deque t2].
      rewrite Hparents1. apply removelast_last.
Qed.

End TraversalInduction.

(** *** The whole run *)

Lemma run_trav_facts (visitors : list check) (tree : node) :
  trav_facts visitors [] (mk_obj [] tree) (below []) (strictly_below [])
    (initial) (run_trav visitors tree) (calls (run_trav visitors tree)).
Proof.
  assert (Hpar : parents_ok [] (parents_deque initial) (node_attrs initial))
    by (intros o []).
  destruct (_run_facts visitors tree [] initial Hpar roles_ok_no_attrs) as [new F].
  pose proof (tf_calls _ _ _ _ _ _ _ _ F) as E. simpl in E.
  unfold run_trav. rewrite E. exact F.
Qed.

(** C5: the diagnostics of a run are those of its invocations, one
    invocation after the other; every invocation is that of a
    registered visitor on a node of the tree, with the ancestors of
    the node as parents; the invocations are in order: on a node
    before those on its descendants, on the subtree of a child before
    those on the subtrees of the later children, and on one node in
    the order of the registry; and unless a method raises, every node
    is handed to every visitor that has the method for its kind. *)
Theorem run_order (visitors : list check) (tree : node) :
  let t := run_trav visitors tree in
  yielded (run visitors (Some tree)) = flat_map call_errors (calls t)
  /\ (forall c, In c (calls t) -> call_ok visitors [] (mk_obj [] tree) c)
  /\ StronglySorted call_lt (calls t)
  /\ (forall i j c1 c2,
        calls t !! i = Some c1 -> calls t !! j = Some c2 ->
        (strictly_below (obj_id (call_node c1)) (obj_id (call_node c2)) ->
         (i < j)%nat)
        /\ ((exists p a b r1 r2,
               (a < b)%nat /\ obj_id (call_node c1) = p ++ a :: r1
               /\ obj_id (call_node c2) = p ++ b :: r2) ->
            (i < j)%nat)
        /\ (obj_id (call_node c1) = obj_id (call_node c2) ->
            (call_visitor c1 < call_visitor c2)%nat ->
            (i < j)%nat))
  /\ (raises (run visitors (Some tree)) = false ->
      forall r n i v h,
        node_at tree r = Some n ->
        visitors !! i = Some v ->
        check_method v (visit_method n) = Some h ->
        exists c, In c (calls t) /\ call_node c = mk_obj r n
                  /\ call_visitor c = i).
Proof.
  intros t. pose proof (run_trav_facts visitors tree) as F. fold t in F.
  split; [reflexivity |].
  split; [intros c Hc; apply (tf_call_ok _ _ _ _ _ _ _ _ F c Hc) |].
  split; [exact (tf_sorted _ _ _ _ _ _ _ _ F) |].
  split; cycle 1.
  { simpl. fold t. intros Hr r n i v h Hat Hv Hm.
    destruct (tf_complete _ _ _ _ _ _ _ _ F Hr r n i v h) as (c & Hc & Hid & Hi);
      try assumption.
    { exists r. reflexivity. }
    exists c. split; [exact Hc |]. split; [| exact Hi].
    destruct (tf_call_ok _ _ _ _ _ _ _ _ F c Hc) as [_ [(r' & Hid' & Hat' & _) _]].
    simpl in Hid, Hid', Hat'. rewrite Hid in Hid'. subst r'.
    rewrite Hat in Hat'. injection Hat' as Hn.
    destruct (call_node c) as [q m]. simpl in *. subst. reflexivity. }
  intros i j c1 c2 Hi Hj.
  pose proof (sorted_before call_lt (calls t) (tf_sorted _ _ _ _ _ _ _ _ F)
                call_lt_irrefl call_lt_asym i j c1 c2 Hi Hj) as Hlt.
  split; [| split].
  - intros (r & Hr & E). apply Hlt. left. rewrite E. apply path_lt_below. exact Hr.
  - intros (p & a & b & r1 & r2 & Hab & E1 & E2). apply Hlt. left.
    rewrite E1, E2. apply path_lt_siblings. exact Hab.
  - intros E Hv. apply Hlt. right. split; assumption.
Qed.

Lemma In_ancestors (r : path) :
  forall (p : path) (n : node) (o : obj),
    In o (ancestors p n r) ->
    exists r1, obj_id o = p ++ r1 /\ node_at n r1 = Some (obj_node o).
Proof.
  induction r as [|i r IH]; intros p n o; simpl; [tauto |].
  intros [<- | H].
  - exists []. rewrite app_nil_r. split; reflexivity.
  - destruct (ast_iter_nodes n !! i) as [c|] eqn:E; [| destruct H].
    destruct (IH _ _ _ H) as (r1 & Hid & Hat).
    exists (i :: r1). rewrite Hid, <- app_assoc. simpl. rewrite E. tauto.
Qed.

(** C4: when a visit method is invoked, every function among the node
    and its parents, each of them the object of a node of the tree,
    has its set of global names, the one [find_global_defs] computes
    for it; its kind reads as one of the four kinds; and both
    attributes are, then and in every other invocation that sees the
    function, what they are at the end of the traversal. *)
Theorem annotations_before_observation
    (visitors : list check) (tree : node) (c : call) (o : obj) :
  let t := run_trav visitors tree in
  In c (calls t) ->
  In o (call_node c :: call_parents c) ->
  is_functiondef (obj_node o) = true ->
  node_at tree (obj_id o) = Some (obj_node o)
  /\ global_names (call_attrs c) !! obj_id o = Some (global_defs (obj_node o))
  /\ In (getattr_function_type (call_attrs c) o) function_types
  /\ function_type (call_attrs c) !! obj_id o = function_type (node_attrs t) !! obj_id o
  /\ global_names (call_attrs c) !! obj_id o = global_names (node_attrs t) !! obj_id o
  /\ (forall c', In c' (calls t) -> In o (call_node c' :: call_parents c') ->
        function_type (call_attrs c') !! obj_id o = function_type (call_attrs c) !! obj_id o
        /\ global_names (call_attrs c') !! obj_id o = global_names (call_attrs c) !! obj_id o).
Proof.
  intros t Hc Ho Hf. pose proof (run_trav_facts visitors tree) as F. fold t in F.
  destruct (tf_assigned _ _ _ _ _ _ _ _ F c Hc o Ho) as [Hpre Hg].
  destruct (tf_stable _ _ _ _ _ _ _ _ F c Hc (obj_id o) Hpre) as [Eft Egn].
  split.
  { destruct (tf_call_ok _ _ _ _ _ _ _ _ F c Hc) as [_ [(r & Hid & Hat & Hp) _]].
    cbn [obj_id obj_node] in Hid, Hat, Hp. simpl in Hid, Hp.
    destruct Ho as [<- | Ho]; [rewrite Hid; exact Hat |].
    rewrite Hp in Ho. destruct (In_ancestors _ _ _ _ Ho) as (r1 & -> & H1).
    exact H1. }
  split; [exact (Hg Hf) |]. split; [| split; [exact Eft | split; [exact Egn |]]].
  - unfold getattr_function_type, function_types.
    destruct (function_type (call_attrs c) !! obj_id o) as [v|] eqn:E; simpl.
    + destruct (tf_call_roles _ _ _ _ _ _ _ _ F c Hc _ _ E) as [-> | Hw]; [tauto |].
      unfold is_method_wrapper in Hw. apply orb_true_iff in Hw.
      destruct Hw as [Hw | Hw]; apply String.eqb_eq in Hw; subst; tauto.
    + tauto.
  - intros c' Hc' Ho'.
    destruct (tf_assigned _ _ _ _ _ _ _ _ F c' Hc' o Ho') as [Hpre' _].
    destruct (tf_stable _ _ _ _ _ _ _ _ F c' Hc' (obj_id o) Hpre') as [Eft' Egn'].
    rewrite Eft, Egn, Eft', Egn'. split; reflexivity.
Qed.

Lemma annotations_before_observation_witness :
  let t := run_trav BaseASTCheck_checks (module_of [xy_class]) in
  let o := mk_obj [0%nat; 0%nat] xy_method in
  node_at (module_of [xy_class]) (obj_id o) = Some (obj_node o)
  /\ global_names (call_attrs xy_call) !! obj_id o = Some (global_defs (obj_node o))
  /\ In (getattr_function_type (call_attrs xy_call) o) function_types
  /\ function_type (call_attrs xy_call) !! obj_id o = function_type (node_attrs t) !! obj_id o
  /\ global_names (call_attrs xy_call) !! obj_id o = global_names (node_attrs t) !! obj_id o
  /\ (forall c', In c' (calls t) -> In o (call_node c' :: call_parents c') ->
        function_type (call_attrs c') !! obj_id o
        = function_type (call_attrs xy_call) !! obj_id o
        /\ global_names (call_attrs c') !! obj_id o
           = global_names (call_attrs xy_call) !! obj_id o).
Proof.
  apply (annotations_before_observation BaseASTCheck_checks (module_of [xy_class])
           xy_call (mk_obj [0%nat; 0%nat] xy_method)).
  - apply nth_In. vm_compute. lia.
  - left. vm_compute. reflexivity.
  - reflexivity.
Defined.

(** The method of [xy_class] is seen as a method, with no global name. *)
Example xy_call_annotations :
  call_visitor xy_call = 2%nat
  /\ getattr_function_type (call_attrs xy_call) (call_node xy_call) = "method"
  /\ (elements <$> global_names (call_attrs xy_call) !! obj_id (call_node xy_call))
     = Some [].
Proof. vm_compute. repeat split. Qed.

(** The run on [sample_module]: the class, then its method (its name,
    its first argument, its argument names), then the assignment in
    the method, then the function and the import that follow. *)
Example run_sample_module :
  map (fun e => (error_lineno e, error_col_offset e, error_text e))
    (yielded (run BaseASTCheck_checks (Some sample_module)))
  = [ (1, 6, "E800 class names should use CapWords convention");
      (2, 8, "E801 function name should be lowercase");
      (2, 8, "E804 first argument of a method should be named 'self'");
      (2, 8, "E802 argument name should be lowercase");
      (3, 8, "E805 variable in function should be lowercase");
      (4, 4, "E801 function name should be lowercase");
      (6, 0, "W801 lowercase imported as non lowercase") ]
  /\ raises (run BaseASTCheck_checks (Some sample_module)) = false.
Proof. vm_compute. split; reflexivity. Qed.

(** * Further properties of the module *)

(** ** The deque of parents *)

Lemma ancestors_length (r : path) :
  forall (p : path) (n m : node),
    node_at n r = Some m -> length (ancestors p n r) = length r.
Proof.
  induction r as [|i r IH]; intros p n m; simpl; [reflexivity |].
  destruct (ast_iter_nodes n !! i) as [c|]; [| discriminate].
  intros H. rewrite (IH _ _ _ H). reflexivity.
Qed.

Lemma ancestors_lookup (r : path) :
  forall (p : path) (n m : node) (k : nat) (o : obj),
    node_at n r = Some m ->
    ancestors p n r !! k = Some o ->
    obj_id o = p ++ take k r /\ node_at n (take k r) = Some (obj_node o).
Proof.
  induction r as [|i r IH]; intros p n m k o; simpl; [discriminate |].
  destruct (ast_iter_nodes n !! i) as [c|] eqn:E; [| discriminate].
  intros Hat. destruct k as [|k]; simpl.
  - intros H. injection H as <-. rewrite app_nil_r. split; reflexivity.
  - intros H. destruct (IH _ _ _ _ _ Hat H) as [Hid Hn].
    rewrite Hid, <- app_assoc, E. split; [reflexivity | exact Hn].
Qed.

(** X1: [_run] pushes a node on [self.parents] before it runs on the
    children and pops it after: a run that does not raise leaves the
    deque empty, and at every invocation the deque holds the ancestors
    of the node, the root first, one object for each level above the
    node. *)
Theorem parents_deque_discipline (visitors : list check) (tree : node) :
  let t := run_trav visitors tree in
  (raised t = false -> parents_deque t = [])
  /\ (forall c, In c (calls t) ->
        length (call_parents c) = length (obj_id (call_node c))
        /\ forall k o, call_parents c !! k = Some o ->
             obj_id o = take k (obj_id (call_node c))
             /\ node_at tree (obj_id o) = Some (obj_node o)).
Proof.
  intros t. pose proof (run_trav_facts visitors tree) as F. fold t in F. split.
  - intros Hr. apply (tf_parents _ _ _ _ _ _ _ _ F Hr).
  - intros c Hc.
    destruct (tf_call_ok _ _ _ _ _ _ _ _ F c Hc) as [_ [(r & Hid & Hat & Hp) _]].
    simpl in Hid, Hat, Hp. rewrite Hid, Hp. split.
    + apply (ancestors_length r [] tree _ Hat).
    + intros k o Hk. destruct (ancestors_lookup r [] tree _ k o Hat Hk) as [E1 E2].
      simpl in E1. rewrite E1. split; [reflexivity | exact E2].
Qed.

(** ** What [tag_class_functions] writes *)

Lemma tag_function_not_function late st o :
  is_functiondef (obj_node o) = false -> tag_function late st o = st.
Proof. unfold tag_function. destruct (obj_node o); try reflexivity. discriminate. Qed.

Lemma fold_tag_only_functions late (p : path) (l : list node) :
  forall k st (q : path),
    (forall j n, l !! j = Some n -> is_functiondef n = true ->
                 q <> p ++ [(k + j)%nat]) ->
    function_type (fold_left (tag_function late) (objs_from p k l) st) !! q
    = function_type st !! q.
Proof.
  induction l as [|c l IH]; intros k st q Hq; simpl; [reflexivity |].
  rewrite IH.
  - destruct (is_functiondef c) eqn:Ec.
    + apply tag_function_other. simpl. rewrite <- (Nat.add_0_r k).
      apply (Hq O c eq_refl Ec).
    + rewrite tag_function_not_function by exact Ec. reflexivity.
  - intros j n Hj Hn. replace (S k + j)%nat with (k + S j)%nat by lia.
    apply (Hq (S j) n Hj Hn).
Qed.

(** X2: [tag_class_functions] sets [function_type] on the children of
    the class that are functions, to one of the three kinds of
    methods, and changes nothing else: no other [function_type], and
    no [global_names]. *)
Theorem tag_class_functions_writes (cls : obj) (st : attrs) :
  let st' := tag_class_functions cls st in
  global_names st' = global_names st
  /\ (forall q : path,
        (forall i n, ast_iter_nodes (obj_node cls) !! i = Some n ->
                     is_functiondef n = true -> q <> obj_id cls ++ [i]) ->
        function_type st' !! q = function_type st !! q)
  /\ (forall i n,
        ast_iter_nodes (obj_node cls) !! i = Some n ->
        is_functiondef n = true ->
        exists v, function_type st' !! (obj_id cls ++ [i]) = Some v
                  /\ In v ["method"; "classmethod"; "staticmethod"]).
Proof.
  intros st'. split; [apply tag_class_functions_global_names |]. split.
  - intros q Hq. unfold st', tag_class_functions, child_objs.
    apply fold_tag_only_functions. intros j n Hj Hn. apply (Hq j n Hj Hn).
  - intros i n Hi Hn. unfold st'.
    rewrite (tag_class_functions_child cls st i n Hi).
    destruct n; try discriminate. cbn [tagged_role].
    eexists. split; [reflexivity |].
    destruct (late_decorations _ !! fname) as [w|] eqn:El.
    + apply late_decorations_wrapper in El. unfold is_method_wrapper in El.
      apply orb_true_iff in El.
      destruct El as [El | El]; apply String.eqb_eq in El; subst; simpl; tauto.
    + destruct (decorator_names decorator_list) as [|first rest] eqn:Ed;
        [simpl; tauto |].
      assert (Hw : is_method_wrapper first = true).
      { apply (decorator_names_wrapper decorator_list). rewrite Ed. left. reflexivity. }
      unfold is_method_wrapper in Hw. apply orb_true_iff in Hw.
      destruct Hw as [Hw | Hw]; apply String.eqb_eq in Hw; subst; simpl; tauto.
Qed.

Lemma decorator_names_none (ds : list node) :
  (forall d, In d ds -> is_wrapper_decorator d = false) ->
  decorator_names ds = [].
Proof.
  induction ds as [|d ds IH]; intros H; [reflexivity |].
  unfold decorator_names in *. simpl.
  rewrite IH by (intros d' Hd'; apply H; right; exact Hd').
  pose proof (H d (or_introl eq_refl)) as Hd.
  destruct d; try reflexivity. simpl in Hd. rewrite Hd. reflexivity.
Qed.

Lemma decorator_names_first (before after : list node) (w : string)
    (ctx : expr_context) (l c : Z) :
  (forall d, In d before -> is_wrapper_decorator d = false) ->
  is_method_wrapper w = true ->
  exists rest, decorator_names (before ++ Name w ctx l c :: after) = w :: rest.
Proof.
  intros Hb Hw. unfold decorator_names. rewrite flat_map_app.
  fold (decorator_names before). rewrite (decorator_names_none before Hb).
  simpl. rewrite Hw. eexists. reflexivity.
Qed.

(** The target of a late decoration is not read: after
    [f = staticmethod(f)], the statement [g = classmethod(f)] makes
    [f] a classmethod. *)
Example late_decoration_any_target :
  getattr_function_type
    (tag_class_functions (mk_obj [0%nat] rewrapped_class) no_attrs)
    (mk_obj [0%nat; 0%nat] plain_f) = "classmethod".
Proof. vm_compute. reflexivity. Qed.

(** X3: without a late decoration of its name, a function of a class
    gets its kind from its decorators: the first one that is the bare
    name [classmethod] or [staticmethod] names the kind, whatever
    follows it, and a function none of whose decorators is such a
    name is a plain method. *)
Theorem decorator_determines_role
    (st : attrs) (cls : obj) (i : nat) (f : string) (fargs : ast_arguments node)
    (fbody decorators : list node) (freturns : option node) (fl fc : Z) :
  let fn := FunctionDef f fargs fbody decorators freturns fl fc in
  let role := getattr_function_type (tag_class_functions cls st)
                (mk_obj (obj_id cls ++ [i]) fn) in
  ast_iter_nodes (obj_node cls) !! i = Some fn ->
  (forall b, In b (ast_iter_nodes (obj_node cls)) ->
             forall w, late_decoration_of b <> Some (f, w)) ->
  (forall before w ctx l c after,
      decorators = before ++ Name w ctx l c :: after ->
      is_method_wrapper w = true ->
      (forall d, In d before -> is_wrapper_decorator d = false) ->
      role = w)
  /\ ((forall d, In d decorators -> is_wrapper_decorator d = false) ->
      role = "method").
Proof.
  intros fn role Hi Hlate.
  assert (Hrole : role = match decorator_names decorators with
                         | first :: _ => first
                         | [] => "method"
                         end).
  { unfold role, getattr_function_type. cbn [obj_id].
    rewrite (tag_class_functions_child cls st i fn Hi).
    unfold fn, tagged_role. rewrite (late_decorations_none f _ Hlate). reflexivity. }
  split.
  - intros before w ctx l c after -> Hw Hb.
    destruct (decorator_names_first before after w ctx l c Hb Hw) as [rest E].
    rewrite Hrole, E. reflexivity.
  - intros Hnone. rewrite Hrole, (decorator_names_none _ Hnone). reflexivity.
Qed.

Lemma decorator_determines_role_witness :
  getattr_function_type
    (tag_class_functions (mk_obj [0%nat] decorated_class) no_attrs)
    (mk_obj ([0%nat] ++ [0%nat]) decorated_f) = "staticmethod".
Proof.
  refine (proj1 (decorator_determines_role no_attrs (mk_obj [0%nat] decorated_class)
                   0%nat "f" (positional ["x"]) [pass_stmt 5 8]
                   [Name "property" Load 1 5; Name "staticmethod" Load 2 5;
                    Name "classmethod" Load 3 5] None 4 4 _ _)
            [Name "property" Load 1 5] "staticmethod" Load 2 5
            [Name "classmethod" Load 3 5] _ _ _).
  - reflexivity.
  - intros b [<- | []] w. discriminate.
  - reflexivity.
  - reflexivity.
  - intros d [<- | []]. reflexivity.
Defined.

(** X4: the dictionary built by the first loop of
    [tag_class_functions] maps a name to a wrapper exactly when some
    statement of the class wraps that name, and then to the wrapper of
    the last such statement. *)
Theorem late_decorations_lookup (children : list node) (f w : string) :
  late_decorations children !! f = Some w <->
  exists pre a post,
    children = pre ++ a :: post
    /\ late_decoration_of a = Some (f, w)
    /\ forall b, In b post -> forall w', late_decoration_of b <> Some (f, w').
Proof.
  split.
  - induction children as [|x l IH] using rev_ind.
    + unfold late_decorations. simpl. rewrite lookup_empty. discriminate.
    + unfold late_decorations in *. rewrite fold_left_app. simpl.
      rewrite late_decoration_step_spec.
      destruct (late_decoration_of x) as [[m v]|] eqn:Ex.
      * rewrite lookup_insert. case_decide as Hm.
        -- intros H. injection H as <-. subst m.
           exists l, x, []. split; [reflexivity |]. split; [exact Ex |].
           intros b [].
        -- intros H. destruct (IH H) as (pre & a & post & -> & Ha & Hpost).
           exists pre, a, (post ++ [x]). rewrite <- app_assoc. split; [reflexivity |].
           split; [exact Ha |]. intros b Hb w' E. apply in_app_or in Hb.
           destruct Hb as [Hb | [<- | []]]; [exact (Hpost b Hb w' E) |].
           rewrite Ex in E. injection E as -> _. congruence.
      * intros H. destruct (IH H) as (pre & a & post & -> & Ha & Hpost).
        exists pre, a, (post ++ [x]). rewrite <- app_assoc. split; [reflexivity |].
        split; [exact Ha |]. intros b Hb w' E. apply in_app_or in Hb.
        destruct Hb as [Hb | [<- | []]]; [exact (Hpost b Hb w' E) |].
        rewrite Ex in E. discriminate.
  - intros (pre & a & post & -> & Ha & Hpost).
    apply late_decorations_last; assumption.
Qed.

(** ** Where [visit_assign] looks *)

Section AssignScope.
Import VariablesInFunctionCheck.

Lemma find_parent_func_skip (inside rest : list obj) :
  (forall o, In o inside -> is_def (obj_node o) = false) ->
  find_parent_func (rev inside ++ rest) = find_parent_func rest.
Proof.
  induction inside as [|o inside IH] using rev_ind; intros H; [reflexivity |].
  rewrite rev_app_distr. simpl.
  assert (Ho : is_def (obj_node o) = false)
    by (apply H, in_or_app; right; left; reflexivity).
  destruct (obj_node o); try discriminate;
    apply IH; intros o' Ho'; apply H, in_or_app; left; exact Ho'.
Qed.

Lemma find_parent_func_In (parents : list obj) (parent_func : obj) :
  find_parent_func parents = Some parent_func ->
  In parent_func parents /\ is_functiondef (obj_node parent_func) = true.
Proof.
  induction parents as [|o parents IH]; simpl; [discriminate |].
  destruct (obj_node o) eqn:E; try discriminate;
    try (intros H; destruct (IH H); tauto).
  intros H. injection H as <-. rewrite E. tauto.
Qed.

(** X5: [visit_assign] reports local variables only: it yields nothing
    for an assignment at module level (no function or class among the
    parents) and for one whose nearest enclosing definition is a
    class, whatever the names assigned, and it does so without
    reading the node. *)
Theorem visit_assign_outside_functions
    (st : attrs) (node : obj) (parents : list obj) :
  ((forall o, In o parents -> is_def (obj_node o) = false) ->
   visit_assign st node parents = Some [])
  /\ (forall before cls inside,
        parents = before ++ cls :: inside ->
        is_classdef (obj_node cls) = true ->
        (forall o, In o inside -> is_def (obj_node o) = false) ->
        visit_assign st node parents = Some []).
Proof.
  split.
  - intros H. unfold visit_assign.
    rewrite <- (app_nil_r (rev parents)), (find_parent_func_skip parents [] H).
    reflexivity.
  - intros before cls inside -> Hcls Hin. unfold visit_assign.
    rewrite rev_app_distr. simpl. rewrite <- app_assoc.
    rewrite (find_parent_func_skip inside _ Hin). simpl.
    destruct (obj_node cls); try discriminate. reflexivity.
Qed.

(** What [visit_targets] yields, when the global names are there. *)
Lemma visit_targets_sound (st : attrs) (parent_func : obj) (names : gset string) :
  global_names st !! obj_id parent_func = Some names ->
  forall targets, exists errs,
    visit_targets st parent_func targets = Some errs
    /\ (length errs <= length targets)%nat
    /\ forall e, In e errs ->
         exists id ctx l c,
           In (Name id ctx l c) targets
           /\ e = (l, c, error_message E805, self)
           /\ check_ id = false /\ str_take 1 id <> "_" /\ id ∉ names.
Proof.
  intros Hg. induction targets as [|target targets IH].
  - exists []. simpl. split; [reflexivity |]. split; [lia | intros e []].
  - destruct IH as (later & Hl & Hlen & Hsound). simpl.
    destruct target; try (exists []; split; [reflexivity |];
                          split; [simpl; lia | intros e []]).
    destruct (String.eqb id "");
      [exists []; split; [reflexivity |]; split; [simpl; lia | intros e []] |].
    rewrite Hg. destruct (bool_decide (id ∈ names)) eqn:Ein;
      [exists []; split; [reflexivity |]; split; [simpl; lia | intros e []] |].
    apply bool_decide_eq_false in Ein. rewrite Hl.
    eexists. split; [reflexivity |].
    destruct (negb (check_ id) && negb (String.eqb (str_take 1 id) "_")) eqn:Eb.
    + split; [simpl; lia |]. intros e [<- | He].
      * apply andb_true_iff in Eb. destruct Eb as [E1 E2].
        apply negb_true_iff in E1, E2. apply String.eqb_neq in E2.
        exists id, ctx, lineno, col_offset. repeat split; try assumption.
        left. reflexivity.
      * destruct (Hsound e He) as (id' & ctx' & l' & c' & Hin & Hrest).
        exists id', ctx', l', c'. split; [right; exact Hin | exact Hrest].
    + split; [simpl; lia |]. intros e He.
      destruct (Hsound e He) as (id' & ctx' & l' & c' & Hin & Hrest).
      exists id', ctx', l', c'. split; [right; exact Hin | exact Hrest].
Qed.

(** X6: in a function whose global names are set, [visit_assign] does
    not raise, yields at most one diagnostic for each target, and
    every diagnostic is E805 at the position of a target that is a
    name, fails the lowercase test, does not start with an underscore
    and is not declared global in the function. *)
Theorem visit_assign_sound
    (st : attrs) (p : path) (parents : list obj) (parent_func : obj)
    (names : gset string) (targets : list node) (value : node)
    (lineno col_offset : Z) :
  find_parent_func (rev parents) = Some parent_func ->
  global_names st !! obj_id parent_func = Some names ->
  exists errs,
    visit_assign st (mk_obj p (Assign targets value lineno col_offset)) parents
    = Some errs
    /\ (length errs <= length targets)%nat
    /\ forall e, In e errs ->
         exists id ctx l c,
           In (Name id ctx l c) targets
           /\ e = (l, c, "E805 variable in function should be lowercase",
                   "VariablesInFunctionCheck")
           /\ check_ id = false /\ str_take 1 id <> "_" /\ id ∉ names.
Proof.
  intros Hpf Hg. unfold visit_assign. rewrite Hpf. cbn [obj_node].
  apply (visit_targets_sound st parent_func names Hg targets).
Qed.

Lemma visit_targets_stops (st : attrs) (parent_func : obj) (names : gset string)
    (stop : node) (after : list node) :
  global_names st !! obj_id parent_func = Some names ->
  is_name stop = false
  \/ (exists id ctx l c, stop = Name id ctx l c /\ id ∈ names) ->
  forall before,
    visit_targets st parent_func (before ++ stop :: after)
    = visit_targets st parent_func before.
Proof.
  intros Hg Hstop. induction before as [|t before IH].
  - simpl. destruct Hstop as [H | (id & ctx & l & c & -> & Hin)].
    + destruct stop; try reflexivity. discriminate.
    + destruct (String.eqb id ""); [reflexivity |].
      rewrite Hg, bool_decide_eq_true_2 by exact Hin. reflexivity.
  - simpl. destruct t; try reflexivity.
    destruct (String.eqb id ""); [reflexivity |].
    rewrite Hg. destruct (bool_decide (id ∈ names)); [reflexivity |].
    rewrite IH. reflexivity.
Qed.

(** X7: the loop over the targets ends at the first target that is
    not a name, or that is declared global, wherever it stands in the
    list: the targets after it are not looked at and go unreported,
    and the method yields what it yields for the targets before it. *)
Theorem visit_assign_stops
    (st : attrs) (p : path) (parents : list obj) (parent_func : obj)
    (names : gset string) (before : list node) (stop : node) (after : list node)
    (value : node) (lineno col_offset : Z) :
  find_parent_func (rev parents) = Some parent_func ->
  global_names st !! obj_id parent_func = Some names ->
  is_name stop = false
  \/ (exists id ctx l c, stop = Name id ctx l c /\ id ∈ names) ->
  visit_assign st
    (mk_obj p (Assign (before ++ stop :: after) value lineno col_offset)) parents
  = visit_assign st (mk_obj p (Assign before value lineno col_offset)) parents.
Proof.
  intros Hpf Hg Hstop. unfold visit_assign. rewrite Hpf. cbn [obj_node].
  apply (visit_targets_stops st parent_func names stop after Hg Hstop).
Qed.

End AssignScope.

Lemma visit_assign_sound_witness :
  let f := mk_obj [0%nat] global_X_function in
  exists errs,
    VariablesInFunctionCheck.visit_assign (find_global_defs f no_attrs)
      (mk_obj [0%nat; 3%nat]
         (Assign [Name "Y" Store 4 4] (Other "Num" [] 4 8) 4 4))
      [mk_obj [] (module_of [global_X_function]); f] = Some errs
    /\ (length errs <= length [Name "Y" Store 4 4])%nat
    /\ forall e, In e errs ->
         exists id ctx l c,
           In (Name id ctx l c) [Name "Y" Store 4 4]
           /\ e = (l, c, "E805 variable in function should be lowercase",
                   "VariablesInFunctionCheck")
           /\ VariablesInFunctionCheck.check_ id = false
           /\ str_take 1 id <> "_"
           /\ id ∉ global_defs global_X_function.
Proof.
  intros f.
  apply (visit_assign_sound (find_global_defs f no_attrs) [0%nat; 3%nat]
           [mk_obj [] (module_of [global_X_function]); f] f
           (global_defs global_X_function)
           [Name "Y" Store 4 4] (Other "Num" [] 4 8) 4 4).
  - reflexivity.
  - apply lookup_insert_eq.
Defined.

Lemma visit_assign_stops_witness :
  let f := mk_obj [0%nat] global_x_function in
  let st := find_global_defs f no_attrs in
  let parents := [mk_obj [] (module_of [global_x_function]); f] in
  VariablesInFunctionCheck.visit_assign st
    (mk_obj [0%nat; 2%nat]
       (Assign ([Name "A" Store 3 0] ++ Name "x" Store 3 4 :: [Name "Y" Store 3 8])
          (Other "Num" [] 3 12) 3 0)) parents
  = VariablesInFunctionCheck.visit_assign st
      (mk_obj [0%nat; 2%nat]
         (Assign [Name "A" Store 3 0] (Other "Num" [] 3 12) 3 0)) parents.
Proof.
  intros f st parents.
  apply (visit_assign_stops st [0%nat; 2%nat] parents f
           (global_defs global_x_function)
           [Name "A" Store 3 0] (Name "x" Store 3 4) [Name "Y" Store 3 8]
           (Other "Num" [] 3 12) 3 0).
  - reflexivity.
  - apply lookup_insert_eq.
  - right. exists "x", Store, 3, 4. split; [reflexivity |].
    apply global_defs_spec. exists (Global ["x"] 2 4). split.
    + exists (Global ["x"] 2 4). split; [simpl; tauto | constructor].
    + simpl. tauto.
Defined.

(** [A = x = Y = 1] after [global x]: [A] is reported, the loop ends
    at [x], and [Y] is not reported. *)
Example visit_assign_stops_at_global :
  let f := mk_obj [0%nat] global_x_function in
  VariablesInFunctionCheck.visit_assign (find_global_defs f no_attrs)
    (mk_obj [0%nat; 2%nat]
       (Assign [Name "A" Store 3 0; Name "x" Store 3 4; Name "Y" Store 3 8]
          (Other "Num" [] 3 12) 3 0))
    [mk_obj [] (module_of [global_x_function]); f]
  = Some [(3, 0, "E805 variable in function should be lowercase",
           "VariablesInFunctionCheck")].
Proof. vm_compute. reflexivity. Qed.

(** ** The patterns *)

Lemma match_star_end_spec (cls : ascii -> bool) :
  cls newline = false ->
  forall s,
    match_star_end cls s = true <->
    all_chars cls s = true
    \/ exists w, s = (w ++ String newline "")%string /\ all_chars cls w = true.
Proof.
  intros Hnl. induction s as [|c r IH]; simpl.
  - split; [left; reflexivity | reflexivity].
  - destruct (cls c) eqn:Ec; simpl.
    + rewrite IH. split.
      * intros [H | (w & -> & Hw)]; [left; exact H |].
        right. exists (String c w). simpl. rewrite Ec. split; [reflexivity | exact Hw].
      * intros [H | (w & E & Hw)]; [left; exact H |].
        destruct w as [|c' w]; simpl in E.
        -- injection E as -> _. congruence.
        -- injection E as <- ->. simpl in Hw. rewrite Ec in Hw.
           right. exists w. split; [reflexivity | exact Hw].
    + split.
      * intros H. apply andb_true_iff in H. destruct H as [H1 H2].
        apply Ascii.eqb_eq in H1. apply String.eqb_eq in H2. subst.
        right. exists ""%string. split; reflexivity.
      * intros [H | (w & E & Hw)]; [discriminate |].
        destruct w as [|c' w]; simpl in E.
        -- injection E as -> ->. reflexivity.
        -- injection E as <- ->. simpl in Hw. rewrite Ec in Hw. discriminate.
Qed.

Lemma match_first_star_end_spec (first rest : ascii -> bool) :
  rest newline = false ->
  forall s, match_first_star_end first rest s = true <-> first_then_rest first rest s.
Proof.
  intros Hnl s. unfold first_then_rest. destruct s as [|c r]; simpl.
  - split; [discriminate |]. intros (c & w & [E | E] & _); discriminate.
  - rewrite andb_true_iff, (match_star_end_spec rest Hnl). split.
    + intros [Hc [H | (w & -> & Hw)]].
      * exists c, r. tauto.
      * exists c, w. tauto.
    + intros (c' & w & [E | E] & Hc & Hw); injection E as <- ->.
      * tauto.
      * split; [exact Hc |]. right. exists w. tauto.
Qed.

(** X8: what the three patterns accept.  A name passes
    [LOWERCASE_REGEX] when it starts with an underscore or a lowercase
    letter and goes on with underscores, lowercase letters and digits;
    [UPPERCASE_REGEX] likewise with uppercase letters; and
    [MIXEDCASE_REGEX] when, after at most one underscore, it starts
    with an uppercase letter and goes on with letters and digits.
    Each of them also accepts such a name followed by one newline,
    which [$] lets through. *)
Theorem patterns_accept (s : string) :
  (LOWERCASE_REGEX_match s = true <->
   first_then_rest (fun c => is_underscore c || is_lower c)
     (fun c => is_underscore c || is_lower c || is_digit c) s)
  /\ (UPPERCASE_REGEX_match s = true <->
      first_then_rest (fun c => is_underscore c || is_upper c)
        (fun c => is_underscore c || is_upper c || is_digit c) s)
  /\ (MIXEDCASE_REGEX_match s = true <->
      first_then_rest is_upper (fun c => is_lower c || is_upper c || is_digit c) s
      \/ exists s', s = String "_" s'
           /\ first_then_rest is_upper
                (fun c => is_lower c || is_upper c || is_digit c) s').
Proof.
  split; [| split].
  - apply match_first_star_end_spec. reflexivity.
  - apply match_first_star_end_spec. reflexivity.
  - unfold MIXEDCASE_REGEX_match.
    pose proof (match_first_star_end_spec is_upper
                  (fun c => is_lower c || is_upper c || is_digit c) eq_refl) as Hspec.
    destruct s as [|c r].
    + split; [discriminate |].
      intros [(c & w & [E | E] & _) | (s' & E & _)]; discriminate.
    + destruct (is_underscore c) eqn:Eu.
      * apply Ascii.eqb_eq in Eu. subst c. rewrite Hspec. split.
        -- intros H. right. exists r. tauto.
        -- intros [(c & w & [E | E] & Hc & _) | (s' & E & H)].
           ++ injection E as <- _. discriminate.
           ++ injection E as <- _. discriminate.
           ++ injection E as <-. exact H.
      * rewrite Hspec. split; [tauto |].
        intros [H | (s' & E & _)]; [exact H |].
        injection E as -> _. discriminate.
Qed.

Lemma match_star_end_ext (cls cls' : ascii -> bool) (s : string) :
  (forall c, cls c = cls' c) -> match_star_end cls s = match_star_end cls' s.
Proof.
  intros E. induction s as [|c r IH]; simpl; [reflexivity |].
  rewrite <- E, IH. reflexivity.
Qed.

Lemma match_star_end_and (cls1 cls2 : ascii -> bool) (s : string) :
  match_star_end (fun c => cls1 c && cls2 c) s
  = match_star_end cls1 s && match_star_end cls2 s.
Proof.
  induction s as [|c r IH]; simpl; [reflexivity |].
  destruct (cls1 c), (cls2 c); simpl; try exact IH.
  - destruct (Ascii.eqb c newline), (String.eqb r "") eqn:Er; simpl;
      rewrite ?andb_false_r; try reflexivity.
    apply String.eqb_eq in Er. subst r. reflexivity.
  - destruct (Ascii.eqb c newline), (String.eqb r "") eqn:Er; simpl;
      try reflexivity.
    apply String.eqb_eq in Er. subst r. reflexivity.
  - destruct (Ascii.eqb c newline && String.eqb r ""); reflexivity.
Qed.

Lemma lower_upper_disjoint (c : ascii) : is_lower c && is_upper c = false.
Proof.
  unfold is_lower, is_upper, char_between.
  change (nat_of_ascii "a") with 97%nat. change (nat_of_ascii "z") with 122%nat.
  change (nat_of_ascii "A") with 65%nat. change (nat_of_ascii "Z") with 90%nat.
  generalize (nat_of_ascii c). intros n.
  destruct (Nat.leb_spec 97 n), (Nat.leb_spec n 122), (Nat.leb_spec 65 n),
    (Nat.leb_spec n 90); simpl; try reflexivity; lia.
Qed.

(** X9: the names that pass both [LOWERCASE_REGEX] and
    [UPPERCASE_REGEX] are those made of underscores and digits after a
    first underscore; [visit_importfrom] tests the uppercase pattern
    first, so for such a name under an alias it can only report
    W800. *)
Theorem lowercase_and_uppercase (s : string) :
  (LOWERCASE_REGEX_match s = true /\ UPPERCASE_REGEX_match s = true <->
   first_then_rest is_underscore (fun c => is_underscore c || is_digit c) s)
  /\ (LOWERCASE_REGEX_match s = true -> UPPERCASE_REGEX_match s = true ->
      forall n asname_,
        ImportAsCheck.visit_alias n (mk_alias s asname_) = []
        \/ ImportAsCheck.visit_alias n (mk_alias s asname_)
           = [_err ImportAsCheck.self n W800]).
Proof.
  split.
  - rewrite <- (match_first_star_end_spec is_underscore
                  (fun c => is_underscore c || is_digit c) eq_refl).
    rewrite <- andb_true_iff.
    unfold LOWERCASE_REGEX_match, UPPERCASE_REGEX_match, match_first_star_end.
    destruct s as [|c r]; [simpl; tauto |].
    pose proof (lower_upper_disjoint c) as Hc.
    rewrite (match_star_end_ext (fun c => is_underscore c || is_digit c)
               (fun c => (is_underscore c || is_lower c || is_digit c)
                         && (is_underscore c || is_upper c || is_digit c)) r).
    + rewrite match_star_end_and.
      generalize (match_star_end
                    (fun c => is_underscore c || is_lower c || is_digit c) r).
      generalize (match_star_end
                    (fun c => is_underscore c || is_upper c || is_digit c) r).
      intros B A.
      destruct (is_underscore c), (is_lower c), (is_upper c), A, B; simpl in *;
        try discriminate; tauto.
    + intros c'. pose proof (lower_upper_disjoint c') as Hc'.
      destruct (is_underscore c'), (is_lower c'), (is_upper c'), (is_digit c');
        simpl in *; try reflexivity; discriminate.
  - intros Hl Hu n asname_. unfold ImportAsCheck.visit_alias. simpl.
    destruct asname_ as [a|]; [| left; reflexivity].
    destruct (String.eqb a ""); [left; reflexivity |].
    unfold ImportAsCheck.check_upper. rewrite Hu.
    destruct (negb (UPPERCASE_REGEX_match a)); [right | left]; reflexivity.
Qed.

(** ** The import check *)

(** X10: [visit_importfrom] does not raise on an import statement and
    yields at most one diagnostic for each imported name; a name
    imported without an alias yields none, and neither does a name
    whose alias passes the same patterns as the name itself. *)
Theorem import_as_per_name
    (st : attrs) (p : path) (parents : list obj) (module : option string)
    (names : list ast_alias) (level : option Z) (lineno col_offset : Z) :
  let n := ImportFrom module names level lineno col_offset in
  (exists errs,
      ImportAsCheck.visit_importfrom st (mk_obj p n) parents = Some errs
      /\ (length errs <= length names)%nat
      /\ ((forall a, In a names -> asname a = None) -> errs = []))
  /\ (forall a, (length (ImportAsCheck.visit_alias n a) <= 1)%nat)
  /\ (forall a alias_,
        asname a = Some alias_ ->
        ImportAsCheck.check_upper (name a) = ImportAsCheck.check_upper alias_ ->
        ImportAsCheck.check_lower (name a) = ImportAsCheck.check_lower alias_ ->
        ImportAsCheck.visit_alias n a = []).
Proof.
  intros n.
  assert (Hone : forall m a, (length (ImportAsCheck.visit_alias m a) <= 1)%nat).
  { intros m a. unfold ImportAsCheck.visit_alias.
    destruct (asname a) as [alias_|]; [| simpl; lia].
    destruct (String.eqb alias_ ""); [simpl; lia |].
    destruct (ImportAsCheck.check_upper (name a)).
    { destruct (negb _); simpl; lia. }
    destruct (ImportAsCheck.check_lower (name a)).
    { destruct (negb _); simpl; lia. }
    destruct (ImportAsCheck.check_lower alias_); [simpl; lia |].
    destruct (ImportAsCheck.check_upper alias_); simpl; lia. }
  split; [| split; [apply Hone |]].
  - eexists. split; [reflexivity |]. cbn [obj_node]. generalize n. clear n. intros m.
    split.
    + induction names as [|a l IH]; simpl; [lia |].
      rewrite length_app. specialize (Hone m a). lia.
    + intros Hnone. induction names as [|a l IH]; simpl; [reflexivity |].
      rewrite IH by (intros a' Ha'; apply Hnone; right; exact Ha').
      unfold ImportAsCheck.visit_alias.
      rewrite (Hnone a (or_introl eq_refl)). reflexivity.
  - intros a alias_ Ha Hu Hl. unfold ImportAsCheck.visit_alias.
    rewrite Ha, Hu, Hl.
    destruct (String.eqb alias_ ""); [reflexivity |].
    destruct (ImportAsCheck.check_upper alias_); [reflexivity |].
    destruct (ImportAsCheck.check_lower alias_); reflexivity.
Qed.

(** ** The name checks *)

Lemma substring_all (k : nat) (s : string) :
  (String.length s <= k)%nat -> substring 0 k s = s.
Proof.
  revert k. induction s as [|c s IH]; intros k Hk.
  - destruct k; reflexivity.
  - destruct k as [|k]; simpl in Hk; [lia |]. simpl. rewrite IH by lia. reflexivity.
Qed.

Lemma substring_skip (pre t : string) (k : nat) :
  substring (String.length pre) k (pre ++ t)%string = substring 0 k t.
Proof. induction pre as [|c pre IH]; simpl; [reflexivity | exact IH]. Qed.

Lemma str_take_last_suffix (k : nat) (s : string) :
  exists pre, s = (pre ++ str_take_last k s)%string.
Proof.
  unfold str_take_last. induction s as [|c s IH].
  - exists ""%string. destruct k; reflexivity.
  - destruct (le_lt_dec k (String.length s)) as [Hle | Hlt].
    + destruct IH as [pre Hpre]. exists (String c pre).
      replace (String.length (String c s) - k)%nat
        with (S (String.length s - k)) by (simpl; lia).
      change (String c s
              = String c (pre ++ substring (String.length s - k) k s)%string).
      f_equal. exact Hpre.
    + exists ""%string.
      replace (String.length (String c s) - k)%nat with O by (simpl; lia).
      rewrite substring_all by (simpl; lia). reflexivity.
Qed.

Lemma string_app_length (a b : string) :
  String.length (a ++ b)%string = (String.length a + String.length b)%nat.
Proof. induction a as [|c a IH]; simpl; [reflexivity | rewrite IH; reflexivity]. Qed.

Lemma str_take_last_spec (s : string) :
  str_take_last 2 s = "__" <-> exists pre, s = (pre ++ "__")%string.
Proof.
  split.
  - intros H. destruct (str_take_last_suffix 2 s) as [pre Hpre].
    exists pre. rewrite <- H. exact Hpre.
  - intros [pre ->]. unfold str_take_last.
    rewrite string_app_length. simpl String.length.
    replace (String.length pre + 2 - 2)%nat with (String.length pre) by lia.
    rewrite substring_skip. reflexivity.
Qed.

Lemma str_take_spec (s : string) :
  str_take 2 s = "__" <-> exists rest, s = ("__" ++ rest)%string.
Proof.
  unfold str_take. split.
  - destruct s as [|a [|b r]]; simpl; try discriminate.
    intros H. injection H as -> -> _. exists r. reflexivity.
  - intros [rest ->]. cbn. destruct rest; reflexivity.
Qed.

(** X11: [FunctionNameCheck] yields one E801 diagnostic, at the line
    of the function plus its decorators and four columns right, when
    the name fails the lowercase pattern, or when the function is not
    tagged as a method of any kind and its name starts or ends with
    two underscores; and nothing otherwise: [__init__] passes in a
    class and is reported at module level. *)
Theorem function_name_check
    (st : attrs) (p : path) (parents : list obj) (fname : string)
    (fargs : ast_arguments node) (body decorator_list : list node)
    (returns : option node) (lineno col_offset : Z) :
  let n := FunctionDef fname fargs body decorator_list returns lineno col_offset in
  let e := (lineno + Z.of_nat (length decorator_list), col_offset + 4,
            "E801 function name should be lowercase", "FunctionNameCheck") in
  let flagged :=
    LOWERCASE_REGEX_match fname = false
    \/ (getattr_function_type st (mk_obj p n) = "function"
        /\ ((exists rest, fname = ("__" ++ rest)%string)
            \/ (exists pre, fname = (pre ++ "__")%string))) in
  (flagged -> FunctionNameCheck.visit_functiondef st (mk_obj p n) parents = Some [e])
  /\ (~ flagged -> FunctionNameCheck.visit_functiondef st (mk_obj p n) parents = Some []).
Proof.
  intros n e flagged. unfold FunctionNameCheck.visit_functiondef. cbn [obj_node n node_name].
  unfold FunctionNameCheck.check_.
  pose proof (str_take_spec fname) as Htake.
  pose proof (str_take_last_spec fname) as Hlast.
  destruct (String.eqb_spec (getattr_function_type st (mk_obj p n)) "function") as [Ef | Ef];
    destruct (String.eqb_spec "__" (str_take 2 fname)) as [E1 | E1];
    destruct (String.eqb_spec "__" (str_take_last 2 fname)) as [E2 | E2];
    destruct (LOWERCASE_REGEX_match fname) eqn:El; simpl;
    (split; [intros H; try reflexivity | intros H; try reflexivity]);
    unfold flagged in H; fold n in Ef; try (exfalso; intuition congruence).
  all: try (exfalso; apply H; right; split; [exact Ef |];
            first [left; apply Htake; congruence | right; apply Hlast; congruence]).
  all: try (exfalso; apply H; left; reflexivity).
  all: try (exfalso; destruct H as [H | [Hf [H | H]]];
            [discriminate | apply Htake in H; congruence | apply Hlast in H; congruence]).
Qed.

(** X12: [ClassNameCheck] yields nothing for a class whose name the
    CapWords pattern accepts (an uppercase letter followed by letters
    and digits, after at most one underscore), and otherwise exactly
    one E800 diagnostic, at the line of the class plus its decorators
    and six columns right. *)
Theorem class_name_check
    (st : attrs) (p : path) (parents : list obj) (cname : string)
    (bases keywords : list node) (starargs kwargs : option node)
    (body decorator_list : list node) (lineno col_offset : Z) :
  let n := ClassDef cname bases keywords starargs kwargs body decorator_list
             lineno col_offset in
  let e := (lineno + Z.of_nat (length decorator_list), col_offset + 6,
            "E800 class names should use CapWords convention", "ClassNameCheck") in
  let capwords (s : string) :=
    first_then_rest is_upper (fun c => is_lower c || is_upper c || is_digit c) s in
  let accepted := capwords cname \/ exists s, cname = String "_" s /\ capwords s in
  (accepted -> ClassNameCheck.visit_classdef st (mk_obj p n) parents = Some [])
  /\ (~ accepted -> ClassNameCheck.visit_classdef st (mk_obj p n) parents = Some [e]).
Proof.
  intros n e capwords accepted.
  unfold ClassNameCheck.visit_classdef, ClassNameCheck.check_. cbn [obj_node n node_name].
  destruct (proj2 (proj2 (patterns_accept cname))) as [H1 H2].
  destruct (MIXEDCASE_REGEX_match cname) eqn:E; simpl.
  - split; [reflexivity |]. intros Hn. destruct (Hn (H1 eq_refl)).
  - split; [| reflexivity]. intros Ha. apply H2 in Ha. discriminate.
Qed.
